(** * Voronoi diagram generator: a shallow embedding of [voronoi_diagram.py]

    The development follows the computational core of the script:
    [generate_unique_color] and the body of [generate_voronoi] (colour pool,
    colour distribution, grid classification, boundary extraction).  The
    matplotlib drawing calls are kept only as the data they are given.

    Modelling conventions.
    - Python floats are idealised as exact rationals ([Q]): every finite
      double is a rational, and rounding is left out.  The concrete runs
      used below are chosen so that their comparisons come out the same
      way in double precision.
    - [np.sqrt (s) < threshold] is modelled on squares, [s < threshold^2];
      lemma [sqrt_check_adequate] relates the two over the reals.
    - The two generators ([numpy.random] and [random]) are streams of raw
      draws read at a position; any stream is a possible run.
    - Python exceptions are values of [exn]; a computation that can raise
      returns a [result]. *)

From Stdlib Require Import ZArith QArith Qround Qreals Reals Psatz List Permutation.
From Stdlib Require Import Strings.String Strings.Ascii.
From stdpp Require Import gmap strings list.

Local Open Scope string_scope.
Local Open Scope nat_scope.
Local Open Scope list_scope.

(** ** Exceptions *)

Inductive exn : Type :=
  | ZeroDivisionError
  | ValueError
  | IndexError
  | KeyError.

Inductive result (A : Type) : Type :=
  | Ok (a : A)
  | Raise (e : exn).
Arguments Ok {A} a.
Arguments Raise {A} e.

Definition is_ok {A} (r : result A) : bool :=
  match r with Ok _ => true | Raise _ => false end.

(** ** Random sources *)

(** A generator is a stream of raw draws and the position of the next one. *)
Record rng : Type := { raw : nat -> N; pos : nat }.

Definition next (g : rng) : N * rng :=
  (raw g (pos g), {| raw := raw g; pos := S (pos g) |}).

Definition skip (k : nat) (g : rng) : rng :=
  {| raw := raw g; pos := k + pos g |}.

(** [np.random.rand ()]: a double [m / 2^53] with [0 <= m < 2^53]. *)
Definition random_sample (g : rng) : Q * rng :=
  let (r, g') := next g in
  (Z.of_N (r mod 9007199254740992) # 9007199254740992, g').

(** [random._randbelow n]: a uniform integer below [n]. *)
Definition randbelow (n : nat) (g : rng) : nat * rng :=
  let (r, g') := next g in (N.to_nat (r mod N.of_nat n), g').

(** ** Colours *)

Abbreviation rgb := (Q * Q * Q)%type.

(** [int (x)] on a float: truncation toward zero. *)
Definition py_int (x : Q) : Z := Z.quot (Qnum x) (Zpos (Qden x)).

Definition hex_digit (d : Z) : ascii :=
  nth (Z.to_nat d) (list_ascii_of_string "0123456789abcdef") "0"%char.

Fixpoint hex_digits (fuel : nat) (n : Z) (acc : string) : string :=
  match fuel with
  | O => acc
  | S f =>
      let acc' := String (hex_digit (n mod 16)) acc in
      if (n / 16 =? 0)%Z then acc' else hex_digits f (n / 16) acc'
  end.

(** ['{:02x}'.format (n)]: lower-case hexadecimal, zero-padded to width 2. *)
Definition format_02x (n : Z) : string :=
  let body (m : Z) := hex_digits (S (Z.to_nat (Z.log2 m))) m "" in
  if (n <? 0)%Z then "-" +:+ body (- n)%Z
  else if (n <? 16)%Z then "0" +:+ body n
  else body n.

(** ['#{:02x}{:02x}{:02x}'.format (int (r*255), int (g*255), int (b*255))] *)
Definition hex_color (c : rgb) : string :=
  let '(r, g, b) := c in
  "#" +:+ format_02x (py_int (r * 255)) +:+ format_02x (py_int (g * 255))
      +:+ format_02x (py_int (b * 255)).

Definition hex_value (c : ascii) : option Z :=
  let n := Z.of_nat (nat_of_ascii c) in
  if ((48 <=? n) && (n <=? 57))%Z then Some (n - 48)%Z
  else if ((97 <=? n) && (n <=? 102))%Z then Some (n - 87)%Z
  else if ((65 <=? n) && (n <=? 70))%Z then Some (n - 55)%Z
  else None.

Definition hex_byte (a b : ascii) : option Z :=
  match hex_value a, hex_value b with
  | Some x, Some y => Some (16 * x + y)%Z
  | _, _ => None
  end.

(** [mcolors.to_rgb] on the six-digit hexadecimal form ['#rrggbb'], the only
    form of colour this program builds; any other string is rejected. *)
Definition to_rgb (s : string) : result rgb :=
  match s with
  | String "#" (String r1 (String r2 (String g1 (String g2
      (String b1 (String b2 EmptyString)))))) =>
      match hex_byte r1 r2, hex_byte g1 g2, hex_byte b1 b2 with
      | Some r, Some g, Some b =>
          Ok (r # 255, g # 255, b # 255)%Q
      | _, _, _ => Raise ValueError
      end
  | _ => Raise ValueError
  end.

Definition is_color (s : string) : Prop := exists c, to_rgb s = Ok c.

(** [np.sum ((a - b) ** 2)] on two RGB triples *)
Definition dist2 (a b : rgb) : Q :=
  let '(ar, ag, ab) := a in
  let '(br, bg, bb) := b in
  ((ar - br) * (ar - br) + (ag - bg) * (ag - bg) + (ab - bb) * (ab - bb))%Q.

Definition Qltb (x y : Q) : bool := negb (Qle_bool y x).

(** ** generate_unique_color *)

Definition threshold : Q := 1 # 10.
Definition max_attempts : nat := 100.
Definition fallback_gray : string := "#808080".

(** The inner loop over [existing_colors], with its [break]. *)
Fixpoint too_close (c : rgb) (existing : list string) : result bool :=
  match existing with
  | [] => Ok false
  | e :: rest =>
      match to_rgb e with
      | Raise x => Raise x
      | Ok er =>
          if Qltb (dist2 c er) (threshold * threshold) then Ok true
          else too_close c rest
      end
  end.

(** [np.random.rand (3)] *)
Definition rand3 (g : rng) : rgb * rng :=
  let (r, g1) := random_sample g in
  let (gr, g2) := random_sample g1 in
  let (b, g3) := random_sample g2 in
  ((r, gr, b), g3).

(** [for _ in range (n)]: the attempts left, then the fallback. *)
Fixpoint attempts (n : nat) (existing : list string) (g : rng)
  : result string * rng :=
  match n with
  | O => (Ok fallback_gray, g)
  | S n' =>
      let (c, g') := rand3 g in
      let hex := hex_color c in
      match too_close c existing with
      | Raise x => (Raise x, g')
      | Ok false => (Ok hex, g')
      | Ok true => attempts n' existing g'
      end
  end.

Definition generate_unique_color (existing : list string) (g : rng)
  : result string * rng :=
  attempts max_attempts existing g.

(** ** Library functions used by generate_voronoi *)

Abbreviation point := (Q * Q)%type.

(** [np.random.rand (n, 2) * 10]: [n] rows drawn in row-major order;
    a negative dimension raises [ValueError]. *)
Fixpoint rand_rows (n : nat) (g : rng) : list point * rng :=
  match n with
  | O => ([], g)
  | S n' =>
      let (x, g1) := random_sample g in
      let (y, g2) := random_sample g1 in
      let (rest, g3) := rand_rows n' g2 in
      ((x * 10, y * 10)%Q :: rest, g3)
  end.

Definition rand_points (n : Z) (g : rng) : result (list point) * rng :=
  if (n <? 0)%Z then (Raise ValueError, g)
  else let (p, g') := rand_rows (Z.to_nat n) g in (Ok p, g').

(** [range (n)] for an integer [n]. *)
Definition range (n : Z) : list nat := seq 0 (Z.to_nat n).

(** [l[i]] for a non-negative index. *)
Definition list_get {A} (l : list A) (i : nat) : result A :=
  match l !! i with
  | Some x => Ok x
  | None => Raise IndexError
  end.

(** [l[:k]], Python slicing with a possibly negative bound. *)
Definition slice_to {A} (l : list A) (k : Z) : list A :=
  if (k <? 0)%Z then take (length l - Z.to_nat (- k)) l
  else take (Z.to_nat k) l.

(** [a // b] on integers. *)
Definition floordiv (a b : Z) : result Z :=
  if (b =? 0)%Z then Raise ZeroDivisionError else Ok (a / b)%Z.

(** [x[i], x[j] = x[j], x[i]] *)
Definition swap {A} (x : list A) (i j : nat) : list A :=
  match x !! i, x !! j with
  | Some a, Some b => <[j := a]> (<[i := b]> x)
  | _, _ => x
  end.

(** [random.shuffle]: [for i in reversed (range (1, len (x)))], exchange
    [x[i]] with [x[randbelow (i + 1)]]. *)
Fixpoint shuffle_loop {A} (i : nat) (x : list A) (g : rng) : list A * rng :=
  match i with
  | O => (x, g)
  | S i' =>
      let (j, g') := randbelow (S i) g in
      shuffle_loop i' (swap x i j) g'
  end.

Definition shuffle {A} (x : list A) (g : rng) : list A * rng :=
  shuffle_loop (length x - 1) x g.

(** [random.sample (population, k)] by selection from a shrinking pool:
    the [i]-th pick is [pool[randbelow (n - i)]], and the last live entry
    moves into the vacancy. *)
Fixpoint sample_loop (k : nat) (pool : list nat) (n : nat) (g : rng)
  : list nat * rng :=
  match k with
  | O => ([], g)
  | S k' =>
      let (j, g') := randbelow n g in
      let picked := nth j pool 0 in
      let pool' := <[j := nth (n - 1) pool 0]> pool in
      let (rest, g'') := sample_loop k' pool' (n - 1) g' in
      (picked :: rest, g'')
  end.

Definition sample (population : list nat) (k : Z) (g : rng)
  : result (list nat) * rng :=
  if ((k <? 0) || (Z.of_nat (length population) <? k))%Z
  then (Raise ValueError, g)
  else
    let (r, g') := sample_loop (Z.to_nat k) population (length population) g in
    (Ok r, g').

(** [np.linspace (start, stop, num)] *)
Definition linspace (start stop : Q) (num : nat) : list Q :=
  map (fun k => (inject_Z (Z.of_nat k)
                 * ((stop - start) / inject_Z (Z.of_nat (num - 1))) + start)%Q)
      (seq 0 num).

(** [np.meshgrid (x, y)]: [X[i][j] = x[j]] and [Y[i][j] = y[i]]. *)
Definition meshgrid (x y : list Q) : list (list Q) * list (list Q) :=
  (map (fun _ => x) y, map (fun yi => map (fun _ => yi) x) y).

(** [m.ravel ()], row-major. *)
Definition ravel {A} (m : list (list A)) : list A := concat m.

(** [np.argmin]: the first position of the least entry. *)
Fixpoint argmin_from (best_i : nat) (best : Q) (i : nat) (l : list Q) : nat :=
  match l with
  | [] => best_i
  | d :: l' =>
      if Qltb d best then argmin_from i d (S i) l'
      else argmin_from best_i best (S i) l'
  end.

Definition argmin (l : list Q) : result nat :=
  match l with
  | [] => Raise ValueError
  | d :: l' => Ok (argmin_from 0 d 1 l')
  end.

(** Two-dimensional integer arrays. *)
Abbreviation grid := (list (list nat)).

Definition zeros (rows cols : nat) : grid := repeat (repeat 0 cols) rows.

Definition grid_at (a : grid) (i j : nat) : nat := nth j (nth i a []) 0.

Definition grid_set (a : grid) (i j v : nat) : grid :=
  match a !! i with
  | Some row => <[i := <[j := v]> row]> a
  | None => a
  end.

(** ** The steps of generate_voronoi *)

(** [for _ in range (num_colors - 2): color_pool.append (...)] *)
Fixpoint extend_pool (n : nat) (color_pool : list string) (g : rng)
  : result (list string) * rng :=
  match n with
  | O => (Ok color_pool, g)
  | S n' =>
      match generate_unique_color color_pool g with
      | (Raise x, g') => (Raise x, g')
      | (Ok c, g') => extend_pool n' (color_pool ++ [c]) g'
      end
  end.

Definition black : string := "#000000".
Definition white : string := "#FFFFFF".

Definition build_pool (num_colors : Z) (g : rng) : result (list string) * rng :=
  extend_pool (Z.to_nat (num_colors - 2)) [black; white] g.

(** [for i in range (num_colors): colors.extend ([color_pool[i]] * per)] *)
Fixpoint extend_base (color_pool : list string) (idxs : list nat) (per : Z)
    (colors : list string) : result (list string) :=
  match idxs with
  | [] => Ok colors
  | i :: rest =>
      match list_get color_pool i with
      | Raise x => Raise x
      | Ok c => extend_base color_pool rest per (colors ++ repeat c (Z.to_nat per))
      end
  end.

(** [for i in extra_colors: colors.append (color_pool[i])] *)
Fixpoint append_extra (color_pool : list string) (extra : list nat)
    (colors : list string) : result (list string) :=
  match extra with
  | [] => Ok colors
  | i :: rest =>
      match list_get color_pool i with
      | Raise x => Raise x
      | Ok c => append_extra color_pool rest (colors ++ [c])
      end
  end.

(** [{color: i for i, color in enumerate (color_pool[:num_colors])}]:
    a later entry with the same colour replaces the earlier one. *)
Definition color_to_index (color_pool : list string) (num_colors : Z)
  : gmap string nat :=
  fold_left (fun m ic => <[ic.2 := ic.1]> m)
            (combine (seq 0 (length (slice_to color_pool num_colors)))
                     (slice_to color_pool num_colors))
            (∅ : gmap string nat).

Definition dict_get (d : gmap string nat) (k : string) : result nat :=
  match d !! k with
  | Some v => Ok v
  | None => Raise KeyError
  end.

(** [np.vstack ([X.ravel (), Y.ravel ()]).T] for the two linspaces. *)
Definition grid_points (grid_size : nat) : list point :=
  let x := linspace 0 10 grid_size in
  let y := linspace 0 10 grid_size in
  let (X, Y) := meshgrid x y in
  combine (ravel X) (ravel Y).

(** [np.sum ((points - grid_point) ** 2, axis=1)] *)
Definition distances (points : list point) (grid_point : point) : list Q :=
  map (fun p => ((p.1 - grid_point.1) * (p.1 - grid_point.1)
                 + (p.2 - grid_point.2) * (p.2 - grid_point.2))%Q) points.

(** The classification loop over [enumerate (grid_points)], filling the two
    arrays in place; an exception leaves them as they are at that point. *)
Fixpoint classify (points : list point) (colors : list string)
    (c2i : gmap string nat) (grid_size : nat)
    (cells : list (nat * point)) (index_grid color_grid : grid)
  : result unit * (grid * grid) :=
  match cells with
  | [] => (Ok (), (index_grid, color_grid))
  | (i, grid_point) :: rest =>
      match argmin (distances points grid_point) with
      | Raise x => (Raise x, (index_grid, color_grid))
      | Ok closest =>
          let index_grid' :=
            grid_set index_grid (i / grid_size) (i mod grid_size) closest in
          match list_get colors closest with
          | Raise x => (Raise x, (index_grid', color_grid))
          | Ok c =>
              match dict_get c2i c with
              | Raise x => (Raise x, (index_grid', color_grid))
              | Ok ci =>
                  classify points colors c2i grid_size rest index_grid'
                    (grid_set color_grid (i / grid_size) (i mod grid_size) ci)
              end
          end
      end
  end.

(** A marker drawn by [ax.plot (x, y, 'o', color=...)]. *)
Record marker : Type := { mk_x : Q; mk_y : Q; mk_color : string }.

(** [for i, point in enumerate (points): ... color=colors[i] ...] *)
Fixpoint plot_points (pts : list (nat * point)) (colors : list string)
    (point_plots : list marker) : result unit * list marker :=
  match pts with
  | [] => (Ok (), point_plots)
  | (i, p) :: rest =>
      match list_get colors i with
      | Raise x => (Raise x, point_plots)
      | Ok c =>
          plot_points rest colors
            (point_plots ++ [{| mk_x := p.1; mk_y := p.2; mk_color := c |}])
      end
  end.

(** A line drawn by [ax.plot ([x1, x2], [y1, y2])]. *)
Abbreviation segment := ((Q * Q) * (Q * Q))%type.

Definition inj (n : nat) : Q := inject_Z (Z.of_nat n).

(** The body of the inner boundary loop at cell [(i, j)]. *)
Definition boundary_cell (index_grid : grid) (dx dy : Q) (i j : nat)
    (boundary_lines : list segment) : list segment :=
  let lines1 :=
    if Nat.eqb (grid_at index_grid i j) (grid_at index_grid i (j + 1))
    then boundary_lines
    else boundary_lines ++
           [((inj j * dx, inj i * dy), (inj (j + 1) * dx, inj i * dy))%Q] in
  if Nat.eqb (grid_at index_grid i j) (grid_at index_grid (i + 1) j)
  then lines1
  else lines1 ++
         [((inj j * dx, inj i * dy), (inj j * dx, inj (i + 1) * dy))%Q].

(** [for i in range (grid_size - 1): for j in range (grid_size - 1): ...] *)
Definition boundary_loop (index_grid : grid) (dx dy : Q) (grid_size : nat)
    (boundary_lines : list segment) : list segment :=
  fold_left
    (fun lines i =>
       fold_left (fun lines' j => boundary_cell index_grid dx dy i j lines')
                 (seq 0 (grid_size - 1)) lines)
    (seq 0 (grid_size - 1)) boundary_lines.

(** Lines 95-106: the colours of the points.  [colors_per_point] copies of
    each pool colour, one more for the sampled [extra_colors], shuffled. *)
Definition assign_colors (color_pool : list string) (num_points num_colors : Z)
    (g : rng) : result (list string) * rng :=
  match floordiv num_points num_colors with
  | Raise x => (Raise x, g)
  | Ok colors_per_point =>
      let remainder := (num_points mod num_colors)%Z in
      match extend_base color_pool (range num_colors) colors_per_point [] with
      | Raise x => (Raise x, g)
      | Ok base =>
          if (0 <? remainder)%Z then
            match sample (range num_colors) remainder g with
            | (Raise x, g') => (Raise x, g')
            | (Ok extra_colors, g') =>
                match append_extra color_pool extra_colors base with
                | Raise x => (Raise x, g')
                | Ok filled =>
                    let (cs, g'') := shuffle filled g' in (Ok cs, g'')
                end
            end
          else let (cs, g') := shuffle base g in (Ok cs, g')
      end
  end.

(** ** Program state and the body of generate_voronoi *)

(** The module-level globals ([points], [colors], [index_grid],
    [color_grid], all [None] at start), the two generators, and the artists
    handed to matplotlib: the image with its colour map, the site markers
    and the boundary lines. *)
Record World : Type := {
  np_random : rng;
  py_random : rng;
  points : option (list point);
  colors : option (list string);
  index_grid : option grid;
  color_grid : option grid;
  voronoi_plot : option (grid * list string);
  point_plots : list marker;
  boundary_lines : list segment
}.

Definition set_np (g : rng) (w : World) : World :=
  {| np_random := g; py_random := py_random w; points := points w;
     colors := colors w; index_grid := index_grid w;
     color_grid := color_grid w; voronoi_plot := voronoi_plot w;
     point_plots := point_plots w; boundary_lines := boundary_lines w |}.

Definition set_py (g : rng) (w : World) : World :=
  {| np_random := np_random w; py_random := g; points := points w;
     colors := colors w; index_grid := index_grid w;
     color_grid := color_grid w; voronoi_plot := voronoi_plot w;
     point_plots := point_plots w; boundary_lines := boundary_lines w |}.

Definition set_points (p : list point) (w : World) : World :=
  {| np_random := np_random w; py_random := py_random w; points := Some p;
     colors := colors w; index_grid := index_grid w;
     color_grid := color_grid w; voronoi_plot := voronoi_plot w;
     point_plots := point_plots w; boundary_lines := boundary_lines w |}.

Definition set_colors (c : list string) (w : World) : World :=
  {| np_random := np_random w; py_random := py_random w; points := points w;
     colors := Some c; index_grid := index_grid w;
     color_grid := color_grid w; voronoi_plot := voronoi_plot w;
     point_plots := point_plots w; boundary_lines := boundary_lines w |}.

Definition set_grids (ig cg : grid) (w : World) : World :=
  {| np_random := np_random w; py_random := py_random w; points := points w;
     colors := colors w; index_grid := Some ig;
     color_grid := Some cg; voronoi_plot := voronoi_plot w;
     point_plots := point_plots w; boundary_lines := boundary_lines w |}.

Definition set_voronoi_plot (data : grid) (cmap : list string) (w : World)
  : World :=
  {| np_random := np_random w; py_random := py_random w; points := points w;
     colors := colors w; index_grid := index_grid w;
     color_grid := color_grid w; voronoi_plot := Some (data, cmap);
     point_plots := point_plots w; boundary_lines := boundary_lines w |}.

Definition set_point_plots (m : list marker) (w : World) : World :=
  {| np_random := np_random w; py_random := py_random w; points := points w;
     colors := colors w; index_grid := index_grid w;
     color_grid := color_grid w; voronoi_plot := voronoi_plot w;
     point_plots := m; boundary_lines := boundary_lines w |}.

Definition set_boundary_lines (s : list segment) (w : World) : World :=
  {| np_random := np_random w; py_random := py_random w; points := points w;
     colors := colors w; index_grid := index_grid w;
     color_grid := color_grid w; voronoi_plot := voronoi_plot w;
     point_plots := point_plots w; boundary_lines := s |}.

(** State and exceptions: a raised exception keeps the state reached. *)
Definition M (A : Type) : Type := World -> result A * World.

#[export] Instance M_ret : MRet M := fun A a w => (Ok a, w).

#[export] Instance M_bind : MBind M := fun A B k m w =>
  match m w with
  | (Ok a, w') => k a w'
  | (Raise x, w') => (Raise x, w')
  end.

Definition modify (f : World -> World) : M unit := fun w => (Ok (), f w).

Definition lift {A} (r : result A) : M A := fun w => (r, w).

Definition run_np {A} (f : rng -> result A * rng) : M A := fun w =>
  let (r, g) := f (np_random w) in (r, set_np g w).

Definition run_py {A} (f : rng -> result A * rng) : M A := fun w =>
  let (r, g) := f (py_random w) in (r, set_py g w).

Definition enumerate {A} (l : list A) : list (nat * A) :=
  combine (seq 0 (length l)) l.

Definition run_classify (pts : list point) (cs : list string)
    (c2i : gmap string nat) (grid_size : nat) : M (grid * grid) := fun w =>
  let '(r, (ig, cg)) :=
    classify pts cs c2i grid_size (enumerate (grid_points grid_size))
             (zeros grid_size grid_size) (zeros grid_size grid_size) in
  (match r with Ok _ => Ok (ig, cg) | Raise x => Raise x end,
   set_grids ig cg w).

Definition run_plot_points (pts : list point) (cs : list string) : M unit :=
  fun w =>
    let (r, m) := plot_points (enumerate pts) cs (point_plots w) in
    (r, set_point_plots m w).

(** [10 / grid_size] *)
Definition truediv (a : Q) (b : nat) : result Q :=
  if Nat.eqb b 0 then Raise ZeroDivisionError else Ok (a / inj b)%Q.

(** The constant [grid_size = 300] of the source.  It is a parameter of
    the model, so that the statements below hold at every resolution. *)
Definition grid_size : nat := 300.

(** The body of [generate_voronoi], statement by statement.  The plotting
    arguments are the [point_plots] and [boundary_lines] of the state;
    [np.random.seed ()] leaves an arbitrary stream, the one of the state.
    Between [colors = []] and [random.shuffle (colors)] nothing can raise,
    so the global is written once, with the shuffled list. *)
Definition generate_voronoi_at (grid_size : nat) (num_points num_colors : Z)
  : M unit :=
  modify (set_point_plots []);;
  modify (set_boundary_lines []);;
  pts ← run_np (rand_points num_points);
  modify (set_points pts);;
  let num_colors := Z.min num_colors num_points in
  color_pool ← run_np (build_pool num_colors);
  cs ← run_py (assign_colors color_pool num_points num_colors);
  modify (set_colors cs);;
  let c2i := color_to_index color_pool num_colors in
  grids ← run_classify pts cs c2i grid_size;
  modify (set_voronoi_plot grids.2 (slice_to color_pool num_colors));;
  run_plot_points pts cs;;
  dx ← lift (truediv 10 grid_size);
  dy ← lift (truediv 10 grid_size);
  modify (fun w =>
    set_boundary_lines
      (boundary_loop grids.1 dx dy grid_size (boundary_lines w)) w).

Definition generate_voronoi : Z -> Z -> M unit := generate_voronoi_at grid_size.

(** The state before the first call: globals unset, nothing drawn. *)
Definition initial_world (np py : nat -> N) : World :=
  {| np_random := {| raw := np; pos := 0 |};
     py_random := {| raw := py; pos := 0 |};
     points := None; colors := None; index_grid := None; color_grid := None;
     voronoi_plot := None; point_plots := []; boundary_lines := [] |}.

(** ** Definitions used by the statements *)

(** The 8-bit value stored for a channel in [[0, 1)]. *)
Definition channel (x : Q) : Z := py_int (x * 255).

(** The colour read back from the string stored for a candidate. *)
Definition quantize (c : rgb) : rgb :=
  let '(r, g, b) := c in
  (channel r # 255, channel g # 255, channel b # 255)%Q.

Definition unit_rgb (c : rgb) : Prop :=
  let '(r, g, b) := c in
  ((0 <= r)%Q /\ (r < 1)%Q) /\ ((0 <= g)%Q /\ (g < 1)%Q)
  /\ ((0 <= b)%Q /\ (b < 1)%Q).

Definition byte_roundtrip (n : Z) : bool :=
  match format_02x n with
  | String a (String b EmptyString) =>
      match hex_byte a b with
      | Some m => (m =? n)%Z
      | None => false
      end
  | _ => false
  end.

(** [np.sqrt (np.sum ((a - b) ** 2))]: the Euclidean distance in RGB space. *)
Definition distance (a b : rgb) : R := sqrt (Q2R (dist2 a b)).

(** The candidate drawn at attempt [k] (three draws per attempt). *)
Definition candidate (g : rng) (k : nat) : rgb := (rand3 (skip (3 * k) g)).1.

(** [c] is at distance at least [threshold] from every existing colour. *)
Definition far_from (c : rgb) (existing : list string) : Prop :=
  forall e, In e existing ->
    exists er, to_rgb e = Ok er /\ (Q2R threshold <= distance c er)%R.

(** [c] is closer than [threshold] to some existing colour. *)
Definition near_some (c : rgb) (existing : list string) : Prop :=
  exists e er, In e existing /\ to_rgb e = Ok er
               /\ (distance c er < Q2R threshold)%R.

(** The Euclidean norm of a triple of reals. *)
Definition norm3 (x y z : R) : R := sqrt (x * x + y * y + z * z).

(** Entry [j] of the pool is the stored form of a candidate that was
    checked against the entries before it. *)
Definition checked_entry (color_pool : list string) (j : nat) (cj : string)
  : Prop :=
  exists c, unit_rgb c /\ cj = hex_color c /\ far_from c (take j color_pool).

(** What the pool loop maintains: every entry is a colour, and every
    generated entry other than the fallback gray is a checked one. *)
Definition pool_invariant (color_pool : list string) : Prop :=
  Forall is_color color_pool
  /\ color_pool !! 0 = Some black /\ color_pool !! 1 = Some white
  /\ (forall j cj, 2 <= j -> color_pool !! j = Some cj ->
        cj <> fallback_gray -> checked_entry color_pool j cj).

(** The positions of the pool taken by the base loop of [assign_colors]:
    [per] copies of each index below [num_colors]. *)
Definition base_indices (num_colors per : Z) : list nat :=
  flat_map (fun i => repeat i (Z.to_nat per)) (range num_colors).

(** The colour assignment as the specification words it, a sequence of
    pool indices: the steps of [assign_colors] on the indices [i] instead
    of the strings [color_pool[i]].  Lemma [assign_colors_assignment]
    relates the two. *)
Definition color_assignment (num_points num_colors : Z) (g : rng)
  : list nat * rng :=
  let per := (num_points / num_colors)%Z in
  let remainder := (num_points mod num_colors)%Z in
  if (0 <? remainder)%Z then
    let (extra, g') :=
      sample_loop (Z.to_nat remainder) (range num_colors)
                  (length (range num_colors)) g in
    shuffle (base_indices num_colors per ++ extra) g'
  else shuffle (base_indices num_colors per) g.

(** The indices that [random.sample] selects for one more point. *)
Definition extra_indices (num_points num_colors : Z) (g : rng) : list nat :=
  let remainder := (num_points mod num_colors)%Z in
  if (0 <? remainder)%Z then
    (sample_loop (Z.to_nat remainder) (range num_colors)
                 (length (range num_colors)) g).1
  else [].

(** [color_pool[i]] with a default outside the pool. *)
Definition pool_at (color_pool : list string) (i : nat) : string :=
  nth i color_pool "".

(** [k] is the first position of a least entry of [l]. *)
Definition is_first_min (l : list Q) (k : nat) : Prop :=
  exists dk, l !! k = Some dk
    /\ forall m dm, l !! m = Some dm ->
         (dk <= dm)%Q /\ (m < k -> (dk < dm)%Q).

(** The site recorded for a sample point, when there is a site. *)
Definition nearest (pts : list point) (gp : point) : nat :=
  match argmin (distances pts gp) with
  | Ok k => k
  | Raise _ => 0
  end.

(** The colour index recorded for a sample point, when the lookups succeed. *)
Definition color_index_of (pts : list point) (cs : list string)
    (c2i : gmap string nat) (gp : point) : nat :=
  match list_get cs (nearest pts gp) with
  | Ok c => match dict_get c2i c with Ok ci => ci | Raise _ => 0 end
  | Raise _ => 0
  end.

(** Writing the values [vals], given with their flat indices, into an array. *)
Definition fill (grid_size : nat) (vals : list (nat * nat)) (a : grid) : grid :=
  fold_left (fun a iv => grid_set a (iv.1 / grid_size) (iv.1 mod grid_size) iv.2)
            vals a.

Definition grid_dims (grid_size : nat) (a : grid) : Prop :=
  length a = grid_size /\ Forall (fun row => length row = grid_size) a.

(** The sample point of the cell at row [i], column [j]. *)
Definition sample_point (grid_size i j : nat) : point :=
  (nth j (linspace 0 10 grid_size) 0%Q, nth i (linspace 0 10 grid_size) 0%Q).


(** The adjacent pairs the boundary loops look at: the cell [(i, j)] with
    its right neighbour ([Horizontal]) or its upper neighbour ([Vertical]). *)
Inductive orientation : Type := Horizontal | Vertical.

Abbreviation edge := (nat * nat * orientation)%type.

Definition neighbour (e : edge) : nat * nat :=
  match e with
  | (i, j, Horizontal) => (i, j + 1)
  | (i, j, Vertical) => (i + 1, j)
  end.

(** The values of [index_grid] differ across the pair. *)
Definition differs (index_grid : grid) (e : edge) : bool :=
  let '(i, j, _) := e in
  negb (Nat.eqb (grid_at index_grid i j)
                (grid_at index_grid (neighbour e).1 (neighbour e).2)).

(** The line drawn for a pair: from the corner [(j * dx, i * dy)] of the
    cell to the same corner of its neighbour. *)
Definition segment_of (dx dy : Q) (e : edge) : segment :=
  let '(i, j, _) := e in
  ((inj j * dx, inj i * dy),
   (inj (neighbour e).2 * dx, inj (neighbour e).1 * dy))%Q.

(** The pairs in the order of the scan: row by row, column by column, the
    horizontal pair of a cell before its vertical pair. *)
Definition scan (grid_size : nat) : list edge :=
  flat_map
    (fun i => flat_map (fun j => [(i, j, Horizontal); (i, j, Vertical)])
                       (seq 0 (grid_size - 1)))
    (seq 0 (grid_size - 1)).


(** The dictionary comprehension started at index [start] over [m]. *)
Definition build_dict (start : nat) (l : list string) (m : gmap string nat)
  : gmap string nat :=
  fold_left (fun m ic => <[ic.2 := ic.1]> m)
            (combine (seq start (length l)) l) m.

(** The markers drawn for the sites: each at its position, in its colour. *)
Definition markers (pts : list point) (cs : list string) : list marker :=
  map (fun ip : nat * point =>
         {| mk_x := ip.2.1; mk_y := ip.2.2; mk_color := nth ip.1 cs "" |})
      (enumerate pts).

(** The arrays that the classification loop leaves for the given sites,
    colours and dictionary. *)
Definition classified_index_grid (grid_size : nat) (pts : list point) : grid :=
  fill grid_size
       (map (fun x => (x.1, nearest pts x.2)) (enumerate (grid_points grid_size)))
       (zeros grid_size grid_size).

Definition classified_color_grid (grid_size : nat) (pts : list point)
    (cs : list string) (c2i : gmap string nat) : grid :=
  fill grid_size
       (map (fun x => (x.1, color_index_of pts cs c2i x.2))
            (enumerate (grid_points grid_size)))
       (zeros grid_size grid_size).

(** The state that a cycle reaches from [w] when nothing raises, in terms
    of the pool [color_pool] it built and the generator state [g2] then. *)
Definition cycle_world (grid_size : nat) (num_points num_colors : Z)
    (w : World) (color_pool : list string) (g2 : rng) : World :=
  let pts := (rand_rows (Z.to_nat num_points) (np_random w)).1 in
  let k := Z.min num_colors num_points in
  let a := color_assignment num_points k (py_random w) in
  let cs := map (pool_at color_pool) a.1 in
  let c2i := color_to_index color_pool k in
  let ig := classified_index_grid grid_size pts in
  let cg := classified_color_grid grid_size pts cs c2i in
  let d := (10 / inj grid_size)%Q in
  {| np_random := g2; py_random := a.2;
     points := Some pts; colors := Some cs;
     index_grid := Some ig; color_grid := Some cg;
     voronoi_plot := Some (cg, slice_to color_pool k);
     point_plots := markers pts cs;
     boundary_lines :=
       map (segment_of d d) (List.filter (differs ig) (scan grid_size)) |}.

(** ** The properties under test, as the specification words them *)

(** Pool of [k] colours, black then white first, all entries other than the
    fallback gray pairwise at distance at least [threshold]. *)
Definition pool_pairwise_threshold (k : Z) (g : rng) : Prop :=
  exists color_pool,
    (build_pool k g).1 = Ok color_pool
    /\ length color_pool = Z.to_nat k
    /\ color_pool !! 0 = Some black /\ color_pool !! 1 = Some white
    /\ forall i j ci cj a b, i < j ->
         color_pool !! i = Some ci -> color_pool !! j = Some cj ->
         ci <> fallback_gray -> cj <> fallback_gray ->
         to_rgb ci = Ok a -> to_rgb cj = Ok b ->
         (Q2R threshold <= distance a b)%R.

(** [color_grid[i][j] == color_assignment[index_grid[i][j]]] after a cycle. *)
Definition consistency_invariant (grid_size : nat) (num_points num_colors : Z)
    (w : World) : Prop :=
  let w' := (generate_voronoi_at grid_size num_points num_colors w).2 in
  let a := (color_assignment num_points (Z.min num_colors num_points)
                             (py_random w)).1 in
  forall ig cg, index_grid w' = Some ig -> color_grid w' = Some cg ->
  forall i j, i < grid_size -> j < grid_size ->
    grid_at cg i j = nth (grid_at ig i j) a 0.


(** The spacing [10 / grid_size] of the boundary lines is the spacing of
    the classifier's sample coordinates. *)
Definition same_spacing (grid_size : nat) : Prop :=
  forall j, j + 1 < grid_size ->
    (nth (j + 1) (linspace 0 10 grid_size) 0
     - nth j (linspace 0 10 grid_size) 0 == 10 / inj grid_size)%Q.




(** Streams of draws used for the concrete runs below. *)

(** Every draw is 0. *)
Definition zeros_stream : nat -> N := fun _ => 0%N.

(** The first draw is [13 / 128] in units of [2^-53], the others are 0. *)
Definition close_stream : nat -> N :=
  fun n => match n with O => 914793674309632%N | S _ => 0%N end.

(** Draws that make [random.shuffle] exchange positions 2 and 0 of a list
    of four and nothing else. *)
Definition swap_stream : nat -> N :=
  fun n => match n with O => 3%N | S O => 0%N | S (S _) => 1%N end.

(** A counting stream. *)
Definition count_stream : nat -> N := fun n => N.of_nat n.

Definition start (s : nat -> N) : rng := {| raw := s; pos := 0 |}.


(** The state before a first cycle in which every numpy draw is 0 and the
    shuffle exchanges positions 2 and 0. *)
Definition gray_world : World := initial_world zeros_stream swap_stream.

(** The state before a first cycle with counting streams. *)
Definition count_world : World := initial_world count_stream count_stream.

(** ** Facts on colours *)

Lemma random_sample_range (g : rng) :
  (0 <= (random_sample g).1)%Q /\ ((random_sample g).1 < 1)%Q.
Proof.
  unfold random_sample, next; simpl.
  pose proof (N.mod_lt (raw g (pos g)) 9007199254740992) as H.
  assert (H' : (raw g (pos g) mod 9007199254740992 < 9007199254740992)%N)
    by (apply H; discriminate).
  clear H. set (m := (raw g (pos g) mod 9007199254740992)%N) in *. clearbody m.
  split; [unfold Qle | unfold Qlt]; cbn [fst Qnum Qden]; lia.
Qed.

Lemma random_sample_pos (g : rng) :
  (random_sample g).2 = skip 1 g.
Proof. reflexivity. Qed.

Lemma py_int_floor (x : Q) : (0 <= x)%Q -> py_int x = Qfloor x.
Proof.
  destruct x as [n d]; unfold Qle, py_int, Qfloor; simpl; intros H.
  apply Z.quot_div_nonneg; lia.
Qed.

Lemma channel_bounds (x : Q) :
  (0 <= x)%Q -> (x < 1)%Q ->
  (0 <= channel x < 255)%Z /\
  (inject_Z (channel x) / 255 <= x)%Q /\ (x < (inject_Z (channel x) + 1) / 255)%Q.
Proof.
  intros H0 H1. unfold channel.
  assert (Hx : (0 <= x * 255)%Q) by lra.
  rewrite (py_int_floor _ Hx).
  pose proof (Qfloor_le (x * 255)) as Hl.
  pose proof (Qlt_floor (x * 255)) as Hu.
  rewrite inject_Z_plus in Hu. change (inject_Z 1) with 1%Q in Hu.
  set (q := Qfloor (x * 255)) in *. clearbody q.
  split; [split|split].
  - apply Z.lt_succ_r. rewrite Zlt_Qlt. rewrite <- Z.add_1_r, inject_Z_plus.
    change (inject_Z 0) with 0%Q. change (inject_Z 1) with 1%Q. lra.
  - rewrite Zlt_Qlt. change (inject_Z 255) with 255%Q. lra.
  - apply Qle_shift_div_r; [reflexivity | lra].
  - apply Qlt_shift_div_l; [reflexivity | lra].
Qed.

Lemma byte_roundtrip_all :
  forallb byte_roundtrip (map Z.of_nat (seq 0 256)) = true.
Proof. vm_compute. reflexivity. Qed.

Lemma format_02x_byte (n : Z) :
  (0 <= n < 256)%Z ->
  exists a b, format_02x n = String a (String b EmptyString)
              /\ hex_byte a b = Some n.
Proof.
  intros Hn.
  pose proof byte_roundtrip_all as H.
  rewrite forallb_forall in H.
  specialize (H n). 
  assert (Hin : In n (map Z.of_nat (seq 0 256))).
  { apply in_map_iff. exists (Z.to_nat n). split; [lia|].
    apply in_seq. lia. }
  specialize (H Hin). unfold byte_roundtrip in H.
  destruct (format_02x n) as [|a [|b [|]]]; try discriminate.
  destruct (hex_byte a b) as [m|] eqn:Hb; try discriminate.
  apply Z.eqb_eq in H. subst m. eauto.
Qed.

Lemma to_rgb_hex_color (c : rgb) :
  unit_rgb c -> to_rgb (hex_color c) = Ok (quantize c).
Proof.
  destruct c as [[r g] b]. intros [[Hr0 Hr1] [[Hg0 Hg1] [Hb0 Hb1]]].
  destruct (channel_bounds r Hr0 Hr1) as [Hr _].
  destruct (channel_bounds g Hg0 Hg1) as [Hg _].
  destruct (channel_bounds b Hb0 Hb1) as [Hb _].
  destruct (format_02x_byte (channel r)) as (r1 & r2 & Er & Pr); [lia|].
  destruct (format_02x_byte (channel g)) as (g1 & g2 & Eg & Pg); [lia|].
  destruct (format_02x_byte (channel b)) as (b1 & b2 & Eb & Pb); [lia|].
  unfold hex_color, quantize. fold (channel r) (channel g) (channel b).
  rewrite Er, Eg, Eb. simpl. rewrite Pr, Pg, Pb. reflexivity.
Qed.

Lemma rand3_unit (g : rng) : unit_rgb (rand3 g).1.
Proof.
  unfold rand3.
  destruct (random_sample g) as [r g1] eqn:E1.
  destruct (random_sample g1) as [gr g2] eqn:E2.
  destruct (random_sample g2) as [b g3] eqn:E3.
  simpl.
  pose proof (random_sample_range g) as H1. rewrite E1 in H1.
  pose proof (random_sample_range g1) as H2. rewrite E2 in H2.
  pose proof (random_sample_range g2) as H3. rewrite E3 in H3.
  simpl in *. tauto.
Qed.

Lemma rand3_pos (g : rng) : (rand3 g).2 = skip 3 g.
Proof. reflexivity. Qed.

(** ** generate_unique_color *)

Lemma Qltb_lt (x y : Q) : Qltb x y = true <-> (x < y)%Q.
Proof.
  unfold Qltb. rewrite negb_true_iff. split; intros H.
  - apply Qnot_le_lt. intros Hle. apply Qle_bool_iff in Hle. congruence.
  - destruct (Qle_bool y x) eqn:E; [|reflexivity].
    apply Qle_bool_iff in E. exfalso. eapply Qlt_not_le; eassumption.
Qed.

Lemma Qsquare_nonneg (x : Q) : (0 <= x * x)%Q.
Proof.
  destruct x as [n d]. unfold Qle, Qmult; simpl. nia.
Qed.

Lemma dist2_nonneg (a b : rgb) : (0 <= dist2 a b)%Q.
Proof.
  destruct a as [[ar ag] ab], b as [[br bg] bb]. unfold dist2.
  pose proof (Qsquare_nonneg (ar - br)).
  pose proof (Qsquare_nonneg (ag - bg)).
  pose proof (Qsquare_nonneg (ab - bb)).
  set (u := ((ar - br) * (ar - br))%Q) in *.
  set (v := ((ag - bg) * (ag - bg))%Q) in *.
  set (w := ((ab - bb) * (ab - bb))%Q) in *. lra.
Qed.

(** The comparison on squares decides the comparison of the square root
    with the threshold. *)
Lemma sqrt_check_adequate (x t : Q) :
  (0 <= x)%Q -> (0 <= t)%Q ->
  (Qltb x (t * t) = true <-> (sqrt (Q2R x) < Q2R t)%R).
Proof.
  intros Hx Ht. rewrite Qltb_lt.
  apply Qle_Rle in Hx, Ht. rewrite RMicromega.Q2R_0 in Hx, Ht.
  split; intros H.
  - apply Qlt_Rlt in H. rewrite Q2R_mult in H.
    rewrite <- (sqrt_square (Q2R t)) by assumption.
    apply sqrt_lt_1_alt. split; assumption.
  - apply Rlt_Qlt. rewrite Q2R_mult.
    rewrite <- (sqrt_square (Q2R t)) in H by assumption.
    apply sqrt_lt_0_alt in H. exact H.
Qed.

Lemma threshold_nonneg : (0 <= threshold)%Q.
Proof. discriminate. Qed.

Lemma too_close_spec (c : rgb) (existing : list string) :
  Forall is_color existing ->
  (too_close c existing = Ok true /\ near_some c existing)
  \/ (too_close c existing = Ok false /\ far_from c existing).
Proof.
  induction 1 as [|e rest [er He] _ IH]; simpl.
  - right. split; [reflexivity|]. intros e [].
  - rewrite He.
    pose proof (sqrt_check_adequate (dist2 c er) threshold
                  (dist2_nonneg c er) threshold_nonneg) as Hadq.
    destruct (Qltb (dist2 c er) (threshold * threshold)) eqn:E.
    + left. split; [reflexivity|]. exists e, er.
      split; [now left|]. split; [assumption|]. now apply Hadq.
    + destruct IH as [[IH1 (e' & er' & Hin & Hc & Hd)] | [IH1 IH2]].
      * left. split; [assumption|]. exists e', er'. split; [now right|]. tauto.
      * right. split; [assumption|]. intros e' [<- | Hin].
        -- exists er. split; [assumption|]. apply Rnot_lt_le. intros Hlt.
           apply Hadq in Hlt. discriminate.
        -- now apply IH2.
Qed.

Lemma skip_skip (a b : nat) (g : rng) : skip a (skip b g) = skip (a + b) g.
Proof. unfold skip; simpl. f_equal. lia. Qed.

Lemma candidate_shift (g : rng) (i : nat) :
  candidate (skip 3 g) i = candidate g (S i).
Proof.
  unfold candidate. rewrite skip_skip.
  replace (3 * i + 3) with (3 * S i) by lia. reflexivity.
Qed.

Lemma rand3_candidate (g : rng) : rand3 g = (candidate g 0, skip 3 g).
Proof. destruct g; reflexivity. Qed.

Lemma attempts_S (n : nat) (existing : list string) (g : rng) :
  attempts (S n) existing g =
  match too_close (candidate g 0) existing with
  | Raise x => (Raise x, skip 3 g)
  | Ok false => (Ok (hex_color (candidate g 0)), skip 3 g)
  | Ok true => attempts n existing (skip 3 g)
  end.
Proof. destruct g; reflexivity. Qed.

(** What the attempt loop returns: the first acceptable candidate among the
    [n] drawn, or the fallback when all [n] were too close. *)
Lemma attempts_spec (existing : list string) :
  Forall is_color existing ->
  forall (n : nat) (g : rng),
  exists k, k <= n
    /\ (forall i, i < k -> near_some (candidate g i) existing)
    /\ ((k < n /\ far_from (candidate g k) existing
         /\ attempts n existing g
            = (Ok (hex_color (candidate g k)), skip (3 * (k + 1)) g))
        \/ (k = n
            /\ attempts n existing g = (Ok fallback_gray, skip (3 * n) g))).
Proof.
  intros Hex. induction n as [|n IH]; intros g.
  - exists 0. split; [lia|]. split; [intros i Hi; lia|].
    right. split; [reflexivity|]. destruct g; reflexivity.
  - rewrite attempts_S.
    destruct (too_close_spec (candidate g 0) existing Hex) as [[E Hn] | [E Hf]];
      rewrite E.
    + destruct (IH (skip 3 g)) as (k & Hk & Hnear & Hres).
      exists (S k). split; [lia|]. split.
      * intros [|i] Hi; [assumption|].
        rewrite <- candidate_shift. apply Hnear. lia.
      * destruct Hres as [(Hlt & Hfar & Eq) | (-> & Eq)].
        -- left. split; [lia|]. rewrite <- candidate_shift.
           split; [assumption|]. rewrite Eq, skip_skip.
           replace (3 * (k + 1) + 3) with (3 * (S k + 1)) by lia. reflexivity.
        -- right. split; [reflexivity|]. rewrite Eq, skip_skip.
           replace (3 * n + 3) with (3 * S n) by lia. reflexivity.
    + exists 0. split; [lia|]. split; [intros i Hi; lia|].
      left. split; [lia|]. split; [assumption|]. reflexivity.
Qed.

(** ** Distances over the reals *)

Lemma sumsq_nonneg (x y z : R) : (0 <= x * x + y * y + z * z)%R.
Proof. nra. Qed.

Lemma norm3_nonneg (x y z : R) : (0 <= norm3 x y z)%R.
Proof. apply sqrt_pos. Qed.

Lemma norm3_sqr (x y z : R) :
  (norm3 x y z * norm3 x y z = x * x + y * y + z * z)%R.
Proof. apply sqrt_sqrt, sumsq_nonneg. Qed.

Lemma cauchy_schwarz3 (x1 x2 x3 y1 y2 y3 : R) :
  ((x1 * y1 + x2 * y2 + x3 * y3) * (x1 * y1 + x2 * y2 + x3 * y3)
   <= (x1 * x1 + x2 * x2 + x3 * x3) * (y1 * y1 + y2 * y2 + y3 * y3))%R.
Proof.
  pose proof (Rle_0_sqr (x1 * y2 - x2 * y1)) as H1.
  pose proof (Rle_0_sqr (x1 * y3 - x3 * y1)) as H2.
  pose proof (Rle_0_sqr (x2 * y3 - x3 * y2)) as H3.
  unfold Rsqr in *. nra.
Qed.

Lemma norm3_triangle (x1 x2 x3 y1 y2 y3 : R) :
  (norm3 (x1 + y1) (x2 + y2) (x3 + y3) <= norm3 x1 x2 x3 + norm3 y1 y2 y3)%R.
Proof.
  pose proof (norm3_nonneg x1 x2 x3) as HA.
  pose proof (norm3_nonneg y1 y2 y3) as HB.
  pose proof (norm3_sqr x1 x2 x3) as HA2.
  pose proof (norm3_sqr y1 y2 y3) as HB2.
  pose proof (cauchy_schwarz3 x1 x2 x3 y1 y2 y3) as HCS.
  set (A := norm3 x1 x2 x3) in *. set (B := norm3 y1 y2 y3) in *.
  rewrite <- HA2, <- HB2 in HCS.
  assert (Hdot : (x1 * y1 + x2 * y2 + x3 * y3 <= A * B)%R).
  { destruct (Rle_lt_dec (x1 * y1 + x2 * y2 + x3 * y3) (A * B)) as [H|H];
      [exact H|].
    assert (0 <= A * B)%R by nra. nra. }
  rewrite <- (sqrt_square (A + B)) by lra.
  unfold norm3 at 1. apply sqrt_le_1_alt. nra.
Qed.

Lemma distance_norm3 (a b : rgb) :
  distance a b =
  norm3 (Q2R a.1.1 - Q2R b.1.1) (Q2R a.1.2 - Q2R b.1.2) (Q2R a.2 - Q2R b.2).
Proof.
  destruct a as [[ar ag] ab], b as [[br bg] bb].
  unfold distance, norm3, dist2; simpl. f_equal.
  repeat (rewrite Q2R_plus || rewrite Q2R_mult || rewrite Q2R_minus).
  reflexivity.
Qed.

Lemma distance_triangle (a b c : rgb) :
  (distance a c <= distance a b + distance b c)%R.
Proof.
  rewrite !distance_norm3.
  eapply Rle_trans; [|apply norm3_triangle].
  apply Req_le. f_equal; ring.
Qed.

Lemma distance_sym (a b : rgb) : distance a b = distance b a.
Proof.
  rewrite !distance_norm3. unfold norm3. f_equal. ring.
Qed.

Lemma Q2R_channel (x : Q) :
  (0 <= x)%Q -> (x < 1)%Q ->
  (0 <= Q2R x - Q2R (channel x # 255) < 1 / 255)%R.
Proof.
  intros H0 H1.
  destruct (channel_bounds x H0 H1) as (_ & Hl & Hu).
  assert (E : Q2R (channel x # 255) = (Q2R (inject_Z (channel x)) / 255)%R).
  { unfold Q2R; simpl. lra. }
  apply Qle_Rle in Hl. apply Qlt_Rlt in Hu.
  unfold Qdiv in Hl, Hu. rewrite Q2R_mult in Hl, Hu.
  rewrite Q2R_plus in Hu.
  assert (I : Q2R (/ 255) = (/ 255)%R) by (unfold Q2R; simpl; lra).
  assert (J : Q2R 1 = 1%R) by (unfold Q2R; simpl; lra).
  rewrite I in Hl, Hu. rewrite J in Hu. rewrite E. lra.
Qed.

(** Quantisation to 8 bits moves a colour by less than [sqrt 3 / 255]. *)
Lemma quantize_close (c : rgb) :
  unit_rgb c -> (distance c (quantize c) < sqrt 3 / 255)%R.
Proof.
  destruct c as [[r g] b]. intros [[Hr0 Hr1] [[Hg0 Hg1] [Hb0 Hb1]]].
  rewrite distance_norm3. simpl.
  pose proof (Q2R_channel r Hr0 Hr1) as Hr.
  pose proof (Q2R_channel g Hg0 Hg1) as Hg.
  pose proof (Q2R_channel b Hb0 Hb1) as Hb.
  set (x := (Q2R r - Q2R (channel r # 255))%R) in *.
  set (y := (Q2R g - Q2R (channel g # 255))%R) in *.
  set (z := (Q2R b - Q2R (channel b # 255))%R) in *.
  assert (E : (sqrt 3 / 255 = sqrt (3 / (255 * 255)))%R).
  { rewrite sqrt_div_alt by lra. rewrite sqrt_square by lra. reflexivity. }
  rewrite E. unfold norm3. apply sqrt_lt_1_alt. split; [nra|].
  assert (x * x < 1 / 255 * (1 / 255))%R by nra.
  assert (y * y < 1 / 255 * (1 / 255))%R by nra.
  assert (z * z < 1 / 255 * (1 / 255))%R by nra.
  lra.
Qed.

(** A stored colour stays further than [threshold - sqrt 3 / 255] from
    whatever its candidate was checked against. *)
Lemma quantize_far (c er : rgb) :
  unit_rgb c -> (Q2R threshold <= distance c er)%R ->
  (Q2R threshold - sqrt 3 / 255 < distance (quantize c) er)%R.
Proof.
  intros Hu Hd.
  pose proof (quantize_close c Hu) as Hq.
  pose proof (distance_triangle c (quantize c) er) as Ht.
  lra.
Qed.

(** ** The colour pool *)

Lemma candidate_unit (g : rng) (k : nat) : unit_rgb (candidate g k).
Proof. apply rand3_unit. Qed.

Lemma fallback_is_color : is_color fallback_gray.
Proof. eexists. reflexivity. Qed.

Lemma generate_unique_color_spec (existing : list string) (g : rng) :
  Forall is_color existing ->
  exists col g', generate_unique_color existing g = (Ok col, g')
    /\ is_color col
    /\ (col = fallback_gray
        \/ exists c, unit_rgb c /\ col = hex_color c /\ far_from c existing).
Proof.
  intros Hex.
  destruct (attempts_spec existing Hex max_attempts g)
    as (k & _ & _ & [(_ & Hfar & Eq) | (_ & Eq)]).
  - exists (hex_color (candidate g k)), (skip (3 * (k + 1)) g).
    split; [exact Eq|]. split.
    + exists (quantize (candidate g k)).
      apply to_rgb_hex_color, candidate_unit.
    + right. exists (candidate g k).
      split; [apply candidate_unit|]. split; [reflexivity | assumption].
  - exists fallback_gray, (skip (3 * max_attempts) g).
    split; [exact Eq|]. split; [apply fallback_is_color | now left].
Qed.

Lemma pool_invariant_snoc (pool : list string) (col : string) :
  2 <= length pool ->
  pool_invariant pool -> is_color col ->
  (col = fallback_gray
   \/ exists c, unit_rgb c /\ col = hex_color c /\ far_from c pool) ->
  pool_invariant (pool ++ [col]).
Proof.
  intros Hlen (Hcol & H0 & H1 & Hchk) Hc Hnew.
  split; [|split; [|split]].
  - apply Forall_app. split; [assumption|]. constructor; [assumption|constructor].
  - rewrite lookup_app_l by lia. assumption.
  - rewrite lookup_app_l by lia. assumption.
  - intros j cj Hj Hlk Hng.
    destruct (Nat.lt_ge_cases j (length pool)) as [Hlt | Hge].
    + rewrite lookup_app_l in Hlk by assumption.
      destruct (Hchk j cj Hj Hlk Hng) as (c & Hu & -> & Hf).
      exists c. split; [assumption|]. split; [reflexivity|].
      rewrite take_app_le by lia. assumption.
    + rewrite lookup_app_r in Hlk by assumption.
      destruct (j - length pool) as [|d] eqn:Ed; [|destruct d; discriminate].
      simpl in Hlk. injection Hlk as <-.
      assert (j = length pool) by lia. subst j.
      destruct Hnew as [-> | (c & Hu & -> & Hf)]; [congruence|].
      exists c. split; [assumption|]. split; [reflexivity|].
      rewrite take_app_le by lia. rewrite take_ge by lia. assumption.
Qed.

Lemma extend_pool_spec (n : nat) :
  forall (pool : list string) (g : rng),
  2 <= length pool -> pool_invariant pool ->
  exists pool' g', extend_pool n pool g = (Ok pool', g')
    /\ length pool' = length pool + n
    /\ pool_invariant pool'.
Proof.
  induction n as [|n IH]; intros pool g Hlen Hinv.
  - exists pool, g. split; [reflexivity|]. split; [lia | assumption].
  - simpl.
    destruct (generate_unique_color_spec pool g (proj1 Hinv))
      as (col & g1 & Eq & Hc & Hnew).
    rewrite Eq.
    destruct (IH (pool ++ [col]) g1) as (pool' & g' & Eq' & Hl & Hi).
    + rewrite length_app; simpl; lia.
    + now apply pool_invariant_snoc.
    + exists pool', g'. split; [exact Eq'|].
      rewrite length_app in Hl; simpl in Hl. split; [lia | assumption].
Qed.

Lemma initial_pool_invariant : pool_invariant [black; white].
Proof.
  split; [|split; [|split]].
  - repeat constructor; eexists; reflexivity.
  - reflexivity.
  - reflexivity.
  - intros [|[|j]] cj Hj Hlk; try lia. discriminate.
Qed.

Lemma build_pool_spec (K : Z) (g : rng) :
  exists pool g', build_pool K g = (Ok pool, g')
    /\ length pool = 2 + Z.to_nat (K - 2)
    /\ pool_invariant pool.
Proof.
  unfold build_pool.
  destruct (extend_pool_spec (Z.to_nat (K - 2)) [black; white] g)
    as (pool & g' & Eq & Hl & Hi).
  - simpl; lia.
  - apply initial_pool_invariant.
  - exists pool, g'. simpl in Hl. auto.
Qed.

Lemma sqrt3_bounds : (1 < sqrt 3 < 2)%R.
Proof.
  split.
  - rewrite <- sqrt_1 at 1. apply sqrt_lt_1_alt. lra.
  - replace 2%R with (sqrt (2 * 2)) by (apply sqrt_square; lra).
    apply sqrt_lt_1_alt. lra.
Qed.

Lemma Q2R_threshold : Q2R threshold = (1 / 10)%R.
Proof. unfold threshold, Q2R; simpl. lra. Qed.

Lemma margin_pos : (0 < Q2R threshold - sqrt 3 / 255)%R.
Proof. rewrite Q2R_threshold. pose proof sqrt3_bounds. lra. Qed.

Lemma black_white_distance :
  forall a b, to_rgb black = Ok a -> to_rgb white = Ok b ->
  distance a b = sqrt 3.
Proof.
  intros a b Ha Hb.
  assert (Eb : to_rgb black = Ok (0 # 255, 0 # 255, 0 # 255)%Q)
    by (vm_compute; reflexivity).
  assert (Ew : to_rgb white = Ok (255 # 255, 255 # 255, 255 # 255)%Q)
    by (vm_compute; reflexivity).
  rewrite Eb in Ha. rewrite Ew in Hb.
  injection Ha as <-. injection Hb as <-.
  rewrite distance_norm3. unfold norm3. cbn [fst snd]. f_equal.
  unfold Q2R; cbn [Qnum Qden]. lra.
Qed.

(** Stored pool colours are pairwise further apart than
    [threshold - sqrt 3 / 255], the later one not being the fallback. *)
Lemma pool_invariant_pairwise (pool : list string) :
  pool_invariant pool ->
  forall i j ci cj a b, i < j ->
    pool !! i = Some ci -> pool !! j = Some cj -> cj <> fallback_gray ->
    to_rgb ci = Ok a -> to_rgb cj = Ok b ->
    (Q2R threshold - sqrt 3 / 255 < distance a b)%R.
Proof.
  intros (Hcol & H0 & H1 & Hchk) i j ci cj a b Hij Hi Hj Hng Ha Hb.
  destruct (Nat.lt_ge_cases j 2) as [Hlt | Hge].
  - assert (j = 1) by lia. assert (i = 0) by lia. subst i j.
    rewrite H0 in Hi. rewrite H1 in Hj.
    injection Hi as <-. injection Hj as <-.
    rewrite (black_white_distance a b Ha Hb).
    rewrite Q2R_threshold. pose proof sqrt3_bounds. lra.
  - destruct (Hchk j cj Hge Hj Hng) as (c & Hu & -> & Hf).
    rewrite (to_rgb_hex_color c Hu) in Hb. injection Hb as <-.
    destruct (Hf ci) as (er & Her & Hd).
    { apply list_elem_of_In, list_elem_of_lookup. exists i.
      rewrite lookup_take_lt by lia. assumption. }
    rewrite Ha in Her. injection Her as <-.
    rewrite distance_sym. now apply quantize_far.
Qed.

Lemma distance_refl (a : rgb) : distance a a = 0%R.
Proof.
  rewrite distance_norm3. unfold norm3.
  replace (_ + _ + _)%R with 0%R by ring. apply sqrt_0.
Qed.

(** Hence a pool entry other than the fallback gray differs from every
    earlier entry. *)
Lemma pool_invariant_distinct (pool : list string) :
  pool_invariant pool ->
  forall i j ci cj, i < j ->
    pool !! i = Some ci -> pool !! j = Some cj -> cj <> fallback_gray ->
    ci <> cj.
Proof.
  intros Hinv i j ci cj Hij Hi Hj Hng Heq. subst cj.
  destruct Hinv as (Hcol & Hrest).
  assert (Hc : is_color ci).
  { eapply Forall_lookup_1; eassumption. }
  destruct Hc as [a Ha].
  pose proof (pool_invariant_pairwise pool (conj Hcol Hrest)
                i j ci ci a a Hij Hi Hj Hng Ha Ha) as H.
  rewrite distance_refl in H. pose proof margin_pos. lra.
Qed.

(** ** random.shuffle and random.sample *)

Lemma randbelow_lt (n : nat) (g : rng) : 0 < n -> (randbelow n g).1 < n.
Proof.
  intros Hn. unfold randbelow, next; simpl.
  pose proof (N.mod_lt (raw g (pos g)) (N.of_nat n)) as H.
  lia.
Qed.

Lemma randbelow_skip (n : nat) (g : rng) : (randbelow n g).2 = skip 1 g.
Proof. reflexivity. Qed.

Lemma swap_length {A} (x : list A) (i j : nat) : length (swap x i j) = length x.
Proof.
  unfold swap. destruct (x !! i), (x !! j); try reflexivity.
  now rewrite !length_insert.
Qed.

Lemma swap_Permutation {A} (x : list A) (i j : nat) : swap x i j ≡ₚ x.
Proof.
  unfold swap. destruct (x !! i) as [a|] eqn:Hi; [|reflexivity].
  destruct (x !! j) as [b|] eqn:Hj; [|reflexivity].
  now apply Permutation_insert_swap.
Qed.

Lemma swap_map {A B} (f : A -> B) (x : list A) (i j : nat) :
  swap (map f x) i j = map f (swap x i j).
Proof.
  unfold swap. change (map f x) with (f <$> x).
  rewrite !list_lookup_fmap.
  destruct (x !! i) as [a|]; simpl; [|reflexivity].
  destruct (x !! j) as [b|]; simpl; [|reflexivity].
  change (map f) with (fmap (M:=list) f).
  now rewrite !list_fmap_insert.
Qed.

Lemma shuffle_loop_Permutation {A} (i : nat) :
  forall (x : list A) (g : rng), (shuffle_loop i x g).1 ≡ₚ x.
Proof.
  induction i as [|i IH]; intros x g; cbn [shuffle_loop]; [reflexivity|].
  destruct (randbelow (S (S i)) g) as [j g'] eqn:E.
  rewrite IH. apply swap_Permutation.
Qed.

Lemma shuffle_loop_map {A B} (f : A -> B) (i : nat) :
  forall (x : list A) (g : rng),
  shuffle_loop i (map f x) g
  = (map f (shuffle_loop i x g).1, (shuffle_loop i x g).2).
Proof.
  induction i as [|i IH]; intros x g; cbn [shuffle_loop]; [reflexivity|].
  destruct (randbelow (S (S i)) g) as [j g'] eqn:E.
  rewrite swap_map. apply IH.
Qed.

Lemma shuffle_Permutation {A} (x : list A) (g : rng) : (shuffle x g).1 ≡ₚ x.
Proof. apply shuffle_loop_Permutation. Qed.

Lemma shuffle_map {A B} (f : A -> B) (x : list A) (g : rng) :
  shuffle (map f x) g = (map f (shuffle x g).1, (shuffle x g).2).
Proof. unfold shuffle. rewrite length_map. apply shuffle_loop_map. Qed.

(** One selection step: the picked entry and the entries still live make
    up the entries that were live. *)
Lemma sample_step_Permutation (pool : list nat) (n j : nat) :
  n <= length pool -> j < n ->
  nth j pool 0 :: take (n - 1) (<[j := nth (n - 1) pool 0]> pool)
  ≡ₚ take n pool.
Proof.
  intros Hn Hj.
  set (l := take n pool).
  assert (Hl : length l = n) by (unfold l; rewrite length_take; lia).
  assert (Hpj : l !! j = Some (nth j pool 0)).
  { unfold l. rewrite lookup_take_lt by lia.
    destruct (nth_lookup_or_length pool j 0) as [E|E]; [exact E | lia]. }
  assert (Hpl : l !! (n - 1) = Some (nth (n - 1) pool 0)).
  { unfold l. rewrite lookup_take_lt by lia.
    destruct (nth_lookup_or_length pool (n - 1) 0) as [E|E]; [exact E | lia]. }
  set (v := nth (n - 1) pool 0) in *. set (p := nth j pool 0) in *.
  assert (E1 : take (n - 1) (<[j := v]> pool) = take (n - 1) (<[j := v]> l)).
  { unfold l. rewrite <- take_insert_lt by lia.
    rewrite take_take. f_equal. lia. }
  rewrite E1.
  pose proof (Permutation_insert_swap l j (n - 1) p v Hpj Hpl) as HP.
  rewrite insert_take_drop in HP by (rewrite length_insert; lia).
  rewrite (drop_ge _ (S (n - 1))) in HP by (rewrite length_insert; lia).
  etransitivity; [apply Permutation_cons_append | exact HP].
Qed.

(** The selection returns [k] entries which, with some others, make up the
    live part of the pool: distinct entries of the population. *)
Lemma sample_loop_spec (k : nat) :
  forall (pool : list nat) (n : nat) (g : rng),
  k <= n -> n <= length pool ->
  length (sample_loop k pool n g).1 = k
  /\ (sample_loop k pool n g).2 = skip k g
  /\ exists rest, (sample_loop k pool n g).1 ++ rest ≡ₚ take n pool.
Proof.
  induction k as [|k IH]; intros pool n g Hk Hn.
  - simpl. split; [reflexivity|]. split; [destruct g; reflexivity|].
    exists (take n pool). reflexivity.
  - cbn [sample_loop].
    destruct (randbelow n g) as [j g'] eqn:E.
    assert (Hj : j < n).
    { change j with (j, g').1. rewrite <- E. apply randbelow_lt. lia. }
    assert (Hg : g' = skip 1 g).
    { change g' with (j, g').2. rewrite <- E. reflexivity. }
    specialize (IH (<[j := nth (n - 1) pool 0]> pool) (n - 1) g').
    destruct (sample_loop k (<[j := nth (n - 1) pool 0]> pool) (n - 1) g')
      as [rest g''] eqn:E'.
    cbn [fst snd] in *.
    destruct IH as (IH1 & IH2 & tl & IH3); [lia | rewrite length_insert; lia |].
    split; [simpl; lia|]. split.
    { rewrite IH2, Hg, skip_skip. f_equal. lia. }
    exists tl. rewrite <- app_comm_cons, IH3.
    now apply sample_step_Permutation.
Qed.

Lemma sample_range_spec (K k : nat) (g : rng) :
  k <= K ->
  let extra := (sample_loop k (seq 0 K) (length (seq 0 K)) g).1 in
  length extra = k /\ NoDup extra /\ (forall i, In i extra -> i < K).
Proof.
  intros Hk extra.
  destruct (sample_loop_spec k (seq 0 K) (length (seq 0 K)) g)
    as (Hl & _ & rest & HP); [rewrite length_seq; lia | lia |].
  fold extra in Hl, HP.
  rewrite take_ge in HP by lia.
  split; [exact Hl|]. split.
  - assert (HN : NoDup (extra ++ rest)).
    { rewrite HP. apply NoDup_seq. }
    apply NoDup_app in HN. tauto.
  - intros i Hi.
    assert (Hin : In i (seq 0 K)).
    { apply list_elem_of_In. rewrite <- HP. apply list_elem_of_In.
      apply in_or_app. now left. }
    apply in_seq in Hin. lia.
Qed.

(** ** The colour distribution *)

Lemma list_get_pool_at (pool : list string) (i : nat) :
  i < length pool -> list_get pool i = Ok (pool_at pool i).
Proof.
  intros Hi. unfold list_get, pool_at.
  destruct (nth_lookup_or_length pool i "") as [E|E]; [|lia].
  now rewrite E.
Qed.

Lemma list_get_out {A} (l : list A) (i : nat) :
  length l <= i -> list_get l i = Raise IndexError.
Proof.
  intros Hi. unfold list_get. now rewrite lookup_ge_None_2.
Qed.

Lemma extend_base_spec (pool : list string) (per : Z) (idxs : list nat) :
  forall acc,
  (forall i, In i idxs -> i < length pool) ->
  extend_base pool idxs per acc
  = Ok (acc ++ map (pool_at pool)
                   (flat_map (fun i => repeat i (Z.to_nat per)) idxs)).
Proof.
  induction idxs as [|i rest IH]; intros acc Hin; simpl.
  - now rewrite app_nil_r.
  - rewrite list_get_pool_at by (apply Hin; now left).
    rewrite IH by (intros; apply Hin; now right).
    rewrite map_app, map_repeat, app_assoc. reflexivity.
Qed.

Lemma append_extra_spec (pool : list string) (extra : list nat) :
  forall acc,
  (forall i, In i extra -> i < length pool) ->
  append_extra pool extra acc = Ok (acc ++ map (pool_at pool) extra).
Proof.
  induction extra as [|i rest IH]; intros acc Hin; simpl.
  - now rewrite app_nil_r.
  - rewrite list_get_pool_at by (apply Hin; now left).
    rewrite IH by (intros; apply Hin; now right).
    now rewrite <- app_assoc.
Qed.

Lemma range_length (K : Z) : length (range K) = Z.to_nat K.
Proof. unfold range. apply length_seq. Qed.

Lemma in_range (K : Z) (i : nat) : In i (range K) <-> i < Z.to_nat K.
Proof. unfold range. rewrite in_seq. lia. Qed.

(** The strings built by [assign_colors] are the pool colours at the
    indices of [color_assignment], drawn with the same random draws. *)
Lemma assign_colors_assignment (pool : list string) (N K : Z) (g : rng) :
  (0 < K)%Z -> Z.to_nat K <= length pool ->
  assign_colors pool N K g
  = (Ok (map (pool_at pool) (color_assignment N K g).1),
     (color_assignment N K g).2).
Proof.
  intros HK Hlen. unfold assign_colors, color_assignment, floordiv.
  replace (K =? 0)%Z with false by (symmetry; apply Z.eqb_neq; lia).
  rewrite extend_base_spec by (intros i Hi; apply in_range in Hi; lia).
  fold (base_indices K (N / K)). rewrite app_nil_l.
  pose proof (Z.mod_pos_bound N K HK) as Hrem.
  destruct (0 <? N mod K)%Z eqn:E.
  - unfold sample. rewrite range_length.
    replace ((N mod K <? 0) || (Z.of_nat (Z.to_nat K) <? N mod K))%Z
      with false by (symmetry; apply orb_false_iff; split; apply Z.ltb_ge; lia).
    destruct (sample_range_spec (Z.to_nat K) (Z.to_nat (N mod K)) g)
      as (Hl & Hnd & Hlt); [lia|].
    fold (range K) in Hl, Hnd, Hlt. rewrite range_length in Hl, Hnd, Hlt.
    destruct (sample_loop (Z.to_nat (N mod K)) (range K) (Z.to_nat K) g)
      as [extra g'] eqn:E'.
    cbn [fst] in *.
    rewrite append_extra_spec by (intros i Hi; specialize (Hlt i Hi); lia).
    rewrite <- map_app, shuffle_map.
    destruct (shuffle (base_indices K (N / K) ++ extra) g'); reflexivity.
  - rewrite shuffle_map.
    destruct (shuffle (base_indices K (N / K)) g); reflexivity.
Qed.

Lemma count_occ_base (K per i : nat) :
  count_occ Nat.eq_dec (flat_map (fun j => repeat j per) (seq 0 K)) i
  = if i <? K then per else 0.
Proof.
  induction K as [|K IH].
  - reflexivity.
  - rewrite seq_S, flat_map_app, count_occ_app, IH. simpl.
    rewrite app_nil_r.
    destruct (Nat.eq_dec K i) as [->|Hne].
    + rewrite count_occ_repeat_eq by reflexivity.
      rewrite Nat.ltb_irrefl.
      replace (i <? S i) with true by (symmetry; apply Nat.ltb_lt; lia).
      reflexivity.
    + rewrite count_occ_repeat_neq by congruence.
      destruct (Nat.ltb_spec i K), (Nat.ltb_spec i (S K)); lia.
Qed.

Lemma length_base (K per : nat) :
  length (flat_map (fun j => repeat j per) (seq 0 K)) = K * per.
Proof.
  induction K as [|K IH]; [reflexivity|].
  rewrite seq_S, flat_map_app, length_app, IH. simpl.
  rewrite app_nil_r, repeat_length. lia.
Qed.

Lemma in_base (K per i : nat) :
  In i (flat_map (fun j => repeat j per) (seq 0 K)) -> i < K.
Proof.
  rewrite in_flat_map. intros (j & Hj & Hi).
  apply repeat_spec in Hi. subst. apply in_seq in Hj. lia.
Qed.

Lemma extra_indices_spec (N K : Z) (g : rng) :
  (0 < K)%Z ->
  length (extra_indices N K g) = Z.to_nat (N mod K)
  /\ NoDup (extra_indices N K g)
  /\ (forall i, In i (extra_indices N K g) -> i < Z.to_nat K).
Proof.
  intros HK. unfold extra_indices.
  pose proof (Z.mod_pos_bound N K HK) as Hrem.
  destruct (0 <? N mod K)%Z eqn:E.
  - unfold range.
    now apply (sample_range_spec (Z.to_nat K) (Z.to_nat (N mod K)) g); lia.
  - apply Z.ltb_ge in E. replace (N mod K)%Z with 0%Z by lia.
    split; [reflexivity|]. split; [constructor | intros i []].
Qed.

Lemma color_assignment_Permutation (N K : Z) (g : rng) :
  (color_assignment N K g).1
  ≡ₚ base_indices K (N / K) ++ extra_indices N K g.
Proof.
  unfold color_assignment, extra_indices.
  destruct (0 <? N mod K)%Z.
  - destruct (sample_loop _ _ _ g) as [extra g']. cbn [fst].
    apply shuffle_Permutation.
  - rewrite app_nil_r. apply shuffle_Permutation.
Qed.

Lemma color_assignment_count (N K : Z) (g : rng) (i : nat) :
  i < Z.to_nat K ->
  count_occ Nat.eq_dec (color_assignment N K g).1 i
  = Z.to_nat (N / K) + count_occ Nat.eq_dec (extra_indices N K g) i.
Proof.
  intros Hi.
  rewrite (proj1 (Permutation_count_occ Nat.eq_dec _ _)
             (color_assignment_Permutation N K g) i).
  rewrite count_occ_app. unfold base_indices, range.
  rewrite count_occ_base.
  replace (i <? Z.to_nat K) with true by (symmetry; apply Nat.ltb_lt; lia).
  reflexivity.
Qed.

Lemma color_assignment_length (N K : Z) (g : rng) :
  (0 <= N)%Z -> (0 < K)%Z ->
  length (color_assignment N K g).1 = Z.to_nat N.
Proof.
  intros HN HK.
  rewrite (Permutation_length (color_assignment_Permutation N K g)).
  rewrite length_app. unfold base_indices, range. rewrite length_base.
  rewrite (proj1 (extra_indices_spec N K g HK)).
  pose proof (Z.div_mod N K ltac:(lia)) as Hdm.
  pose proof (Z.mod_pos_bound N K HK) as Hrem.
  assert (0 <= N / K)%Z by (apply Z.div_pos; lia).
  nia.
Qed.

Lemma color_assignment_bound (N K : Z) (g : rng) (i : nat) :
  (0 < K)%Z ->
  In i (color_assignment N K g).1 -> i < Z.to_nat K.
Proof.
  intros HK Hi.
  apply list_elem_of_In in Hi.
  rewrite (color_assignment_Permutation N K g) in Hi.
  apply list_elem_of_In, in_app_or in Hi. destruct Hi as [Hi|Hi].
  - now apply in_base in Hi.
  - now apply (extra_indices_spec N K g HK).
Qed.

(** ** The dictionary color_to_index *)

Lemma build_dict_absent (l : list string) (c : string) :
  forall start m, ~ In c l -> build_dict start l m !! c = m !! c.
Proof.
  induction l as [|x l IH]; intros start m Hc; [reflexivity|].
  unfold build_dict; simpl. fold (build_dict (S start) l (<[x := start]> m)).
  rewrite IH by (intros H; apply Hc; now right).
  apply lookup_insert_ne. intros ->. apply Hc. now left.
Qed.

(** A key maps to the last position that holds it. *)
Lemma build_dict_last (l : list string) (c : string) :
  forall start m i,
  l !! i = Some c -> (forall j, i < j -> l !! j <> Some c) ->
  build_dict start l m !! c = Some (start + i).
Proof.
  induction l as [|x l IH]; intros start m i Hi Hlast; [discriminate|].
  unfold build_dict; simpl. fold (build_dict (S start) l (<[x := start]> m)).
  destruct i as [|i]; simpl in Hi.
  - injection Hi as ->.
    rewrite build_dict_absent.
    + rewrite lookup_insert_eq. f_equal. lia.
    + intros Hin. apply list_elem_of_In, list_elem_of_lookup in Hin.
      destruct Hin as [j Hj]. apply (Hlast (S j)); [lia | exact Hj].
  - rewrite (IH (S start) _ i Hi).
    + f_equal. lia.
    + intros j Hj. apply (Hlast (S j)). lia.
Qed.

Lemma color_to_index_build (pool : list string) (K : Z) :
  color_to_index pool K = build_dict 0 (slice_to pool K) ∅.
Proof. reflexivity. Qed.

Lemma slice_to_nonneg {A} (l : list A) (K : Z) :
  (0 <= K)%Z -> slice_to l K = take (Z.to_nat K) l.
Proof.
  intros HK. unfold slice_to.
  now replace (K <? 0)%Z with false by (symmetry; apply Z.ltb_ge; lia).
Qed.

(** Among finitely many positions holding [c], there is a last one. *)
Lemma last_position (l : list string) (c : string) (i : nat) :
  l !! i = Some c ->
  exists k, i <= k /\ l !! k = Some c /\ forall j, k < j -> l !! j <> Some c.
Proof.
  revert i. induction l as [|x l IH]; intros i Hi; [discriminate|].
  destruct (in_dec string_dec c l) as [Hin|Hnin].
  - apply list_elem_of_In, list_elem_of_lookup in Hin. destruct Hin as [i' Hi'].
    destruct i as [|i].
    + destruct (IH i' Hi') as (k & _ & Hk & Hl).
      exists (S k). split; [lia|]. split; [exact Hk|].
      intros [|j] Hj; [lia|]. apply Hl. lia.
    + destruct (IH i Hi) as (k & Hik & Hk & Hl).
      exists (S k). split; [lia|]. split; [exact Hk|].
      intros [|j] Hj; [lia|]. apply Hl. lia.
  - destruct i as [|i].
    + exists 0. split; [lia|]. split; [exact Hi|].
      intros [|j] Hj; [lia|]. simpl. intros H. apply Hnin.
      apply list_elem_of_In, list_elem_of_lookup. eauto.
    + exfalso. apply Hnin. apply list_elem_of_In, list_elem_of_lookup. eauto.
Qed.

(** Looking up the colour at pool index [i] gives the last pool index,
    below the number of colours, that holds the same colour. *)
Lemma color_to_index_lookup (pool : list string) (K : Z) (i : nat) :
  (0 <= K)%Z -> i < Z.to_nat K -> Z.to_nat K <= length pool ->
  exists k, dict_get (color_to_index pool K) (pool_at pool i) = Ok k
    /\ i <= k < Z.to_nat K
    /\ pool_at pool k = pool_at pool i
    /\ forall j, k < j < Z.to_nat K -> pool_at pool j <> pool_at pool i.
Proof.
  intros HK Hi Hlen.
  rewrite color_to_index_build, slice_to_nonneg by assumption.
  set (l := take (Z.to_nat K) pool).
  assert (Hl : forall j, j < Z.to_nat K -> l !! j = Some (pool_at pool j)).
  { intros j Hj. unfold l. rewrite lookup_take_lt by assumption.
    unfold pool_at.
    destruct (nth_lookup_or_length pool j "") as [E|E]; [exact E | lia]. }
  assert (Hlen' : length l = Z.to_nat K)
    by (unfold l; rewrite length_take; lia).
  destruct (last_position l (pool_at pool i) i (Hl i Hi)) as (k & Hik & Hk & Hlast).
  assert (Hkl : k < Z.to_nat K).
  { rewrite <- Hlen'. eapply lookup_lt_Some; eassumption. }
  exists k. split.
  - unfold dict_get. now rewrite (build_dict_last l _ 0 ∅ k Hk Hlast).
  - split; [lia|]. split.
    + rewrite (Hl k Hkl) in Hk. now injection Hk.
    + intros j Hj Heq. apply (Hlast j); [lia|].
      rewrite (Hl j) by lia. now f_equal.
Qed.

Lemma color_to_index_NoDup (pool : list string) (K : Z) (i : nat) :
  (0 <= K)%Z -> i < Z.to_nat K -> Z.to_nat K <= length pool ->
  NoDup (take (Z.to_nat K) pool) ->
  dict_get (color_to_index pool K) (pool_at pool i) = Ok i.
Proof.
  intros HK Hi Hlen Hnd.
  destruct (color_to_index_lookup pool K i HK Hi Hlen) as (k & Hd & Hik & Heq & _).
  rewrite Hd. f_equal.
  assert (Hl : forall j, j < Z.to_nat K ->
                 take (Z.to_nat K) pool !! j = Some (pool_at pool j)).
  { intros j Hj. rewrite lookup_take_lt by assumption. unfold pool_at.
    destruct (nth_lookup_or_length pool j "") as [E|E]; [exact E | lia]. }
  eapply NoDup_lookup; [exact Hnd | apply Hl; lia |].
  rewrite Hl by lia. now f_equal.
Qed.

(** ** np.argmin *)

Lemma argmin_from_spec (l : list Q) :
  forall (pre : list Q) (bi : nat) (b : Q),
  pre !! bi = Some b -> is_first_min pre bi ->
  is_first_min (pre ++ l) (argmin_from bi b (length pre) l).
Proof.
  induction l as [|d l IH]; intros pre bi b Hb Hmin; simpl.
  - now rewrite app_nil_r.
  - replace (pre ++ d :: l) with ((pre ++ [d]) ++ l)
      by (now rewrite <- app_assoc).
    replace (S (length pre)) with (length (pre ++ [d]))
      by (rewrite length_app; simpl; lia).
    destruct Hmin as (dk & Hdk & Hall).
    assert (dk = b) by congruence. subst dk.
    destruct (Qltb d b) eqn:E.
    + apply Qltb_lt in E. apply IH.
      * rewrite lookup_app_r by lia. now rewrite Nat.sub_diag.
      * exists d. split.
        { rewrite lookup_app_r by lia. now rewrite Nat.sub_diag. }
        intros m dm Hm.
        apply lookup_app_Some in Hm as [Hm | [Hge Hm]].
        -- destruct (Hall m dm Hm) as [Hle _].
           split; [|intros _]; lra.
        -- destruct (m - length pre) as [|x] eqn:Ex; [|destruct x; discriminate].
           simpl in Hm. injection Hm as <-.
           split; [lra | lia].
    + assert (Hle : (b <= d)%Q).
      { apply Qnot_lt_le. intros H. apply Qltb_lt in H. congruence. }
      apply IH.
      * apply lookup_app_l_Some. exact Hb.
      * exists b. split; [apply lookup_app_l_Some; exact Hb|].
        intros m dm Hm.
        apply lookup_app_Some in Hm as [Hm | [Hge Hm]].
        -- apply Hall. exact Hm.
        -- destruct (m - length pre) as [|x] eqn:Ex; [|destruct x; discriminate].
           simpl in Hm. injection Hm as <-.
           split; [exact Hle|]. intros Hlt.
           apply lookup_lt_Some in Hb. lia.
Qed.

Lemma argmin_spec (l : list Q) :
  l <> [] -> exists k, argmin l = Ok k /\ is_first_min l k.
Proof.
  destruct l as [|d l]; [congruence|]. intros _.
  exists (argmin_from 0 d 1 l). split; [reflexivity|].
  apply (argmin_from_spec l [d] 0 d); [reflexivity|].
  exists d. split; [reflexivity|].
  intros [|m] dm Hm; simpl in Hm; [|discriminate].
  injection Hm as <-. split; [lra | lia].
Qed.

Lemma argmin_empty : argmin [] = Raise ValueError.
Proof. reflexivity. Qed.


(** ** Arrays *)

Lemma zeros_dims (G : nat) : grid_dims G (zeros G G).
Proof.
  unfold grid_dims, zeros. split; [apply repeat_length|].
  apply Forall_forall. intros row Hin.
  apply list_elem_of_In, repeat_spec in Hin. subst. apply repeat_length.
Qed.

Lemma grid_set_dims (G : nat) (a : grid) (i j v : nat) :
  grid_dims G a -> grid_dims G (grid_set a i j v).
Proof.
  intros [Hl Hr]. unfold grid_set.
  destruct (a !! i) as [row|] eqn:E; [|now split].
  split; [now rewrite length_insert|].
  apply Forall_insert; [exact Hr|].
  rewrite length_insert. eapply Forall_lookup_1 in Hr; eauto.
Qed.

Lemma grid_at_lookup (a : grid) (i j : nat) (row : list nat) :
  a !! i = Some row -> grid_at a i j = nth j row 0.
Proof.
  intros E. unfold grid_at. now rewrite (nth_lookup_Some a i [] row E).
Qed.

Lemma grid_at_set_same (G : nat) (a : grid) (i j v : nat) :
  grid_dims G a -> i < G -> j < G ->
  grid_at (grid_set a i j v) i j = v.
Proof.
  intros [Hl Hr] Hi Hj. unfold grid_set.
  destruct (a !! i) as [row|] eqn:E.
  - assert (Hrow : length row = G) by (eapply Forall_lookup_1 in Hr; eauto).
    rewrite (grid_at_lookup _ i j (<[j := v]> row)).
    + apply nth_lookup_Some. apply list_lookup_insert_eq. lia.
    + apply list_lookup_insert_eq. lia.
  - apply lookup_ge_None in E. lia.
Qed.

Lemma grid_at_set_other (a : grid) (i j v i' j' : nat) :
  (i, j) <> (i', j') ->
  grid_at (grid_set a i j v) i' j' = grid_at a i' j'.
Proof.
  intros Hne. unfold grid_set.
  destruct (a !! i) as [row|] eqn:E; [|reflexivity].
  unfold grid_at. rewrite !nth_lookup.
  destruct (Nat.eq_dec i i') as [<-|Hi].
  - rewrite list_lookup_insert_eq by (eapply lookup_lt_Some; eauto).
    rewrite E. simpl.
    rewrite list_lookup_insert_ne by congruence. reflexivity.
  - rewrite list_lookup_insert_ne by assumption. reflexivity.
Qed.


Lemma divmod_inj (G i i' : nat) :
  0 < G -> (i / G, i mod G) = (i' / G, i' mod G) -> i = i'.
Proof.
  intros HG H. injection H as Hd Hm.
  rewrite (Nat.div_mod_eq i G), (Nat.div_mod_eq i' G). congruence.
Qed.

Lemma fill_other (G : nat) (vals : list (nat * nat)) (i : nat) :
  0 < G -> ~ In i (map fst vals) ->
  forall a,
  grid_at (fill G vals a) (i / G) (i mod G) = grid_at a (i / G) (i mod G).
Proof.
  intros HG. induction vals as [|[i0 v0] vals IH]; intros Hnin a; [reflexivity|].
  simpl in Hnin. unfold fill; simpl. fold (fill G vals (grid_set a (i0 / G) (i0 mod G) v0)).
  rewrite IH by tauto.
  apply grid_at_set_other. intros H. apply divmod_inj in H; [|assumption].
  subst. tauto.
Qed.

(** After the writes, a cell holds the value written for its flat index. *)
Lemma fill_at (G : nat) (vals : list (nat * nat)) (i v : nat) :
  NoDup (map fst vals) -> In (i, v) vals -> i < G * G ->
  forall a, grid_dims G a ->
  grid_at (fill G vals a) (i / G) (i mod G) = v.
Proof.
  intros Hnd Hin Hi.
  assert (HG : 0 < G) by (destruct G; lia).
  induction vals as [|[i0 v0] vals IH]; intros a Ha; [destruct Hin|].
  simpl in Hnd. apply NoDup_cons in Hnd as [Hnin Hnd].
  unfold fill; simpl. fold (fill G vals (grid_set a (i0 / G) (i0 mod G) v0)).
  destruct Hin as [Heq | Hin].
  - injection Heq as -> ->.
    assert (Hnin' : ~ In i (map fst vals)) by (now rewrite <- list_elem_of_In).
    rewrite (fill_other G vals i HG Hnin').
    apply (grid_at_set_same G); [assumption | | apply Nat.mod_upper_bound; lia].
    apply Nat.Div0.div_lt_upper_bound. lia.
  - apply IH; [assumption | assumption | now apply grid_set_dims].
Qed.

(** ** The sample points *)

Lemma length_linspace (a b : Q) (n : nat) : length (linspace a b n) = n.
Proof. unfold linspace. now rewrite length_map, length_seq. Qed.

Lemma nth_linspace (a b : Q) (n k : nat) :
  k < n ->
  nth k (linspace a b n) 0%Q
  = (inject_Z (Z.of_nat k) * ((b - a) / inject_Z (Z.of_nat (n - 1))) + a)%Q.
Proof.
  intros Hk. unfold linspace. rewrite nth_lookup.
  set (f := fun k : nat =>
         (inject_Z (Z.of_nat k) * ((b - a) / inject_Z (Z.of_nat (n - 1))) + a)%Q).
  change (map f (seq 0 n)) with (f <$> seq 0 n).
  rewrite list_lookup_fmap, lookup_seq_lt by lia. reflexivity.
Qed.

Lemma concat_lookup_row {A} (rows : list (list A)) (G r c : nat) :
  Forall (fun row => length row = G) rows -> c < G ->
  concat rows !! (r * G + c) = rows !! r ≫= (fun row => row !! c).
Proof.
  intros Hrows Hc. revert r.
  induction Hrows as [|row rows Hrow _ IH]; intros r; simpl.
  - now rewrite !lookup_nil.
  - destruct r as [|r]; simpl.
    + apply lookup_app_l. lia.
    + rewrite lookup_app_r by lia.
      replace (G + r * G + c - length row) with (r * G + c) by lia.
      apply IH.
Qed.

Lemma length_concat_rows {A} (rows : list (list A)) (G : nat) :
  Forall (fun row => length row = G) rows ->
  length (concat rows) = length rows * G.
Proof.
  induction 1 as [|row rows Hrow _ IH]; simpl; [reflexivity|].
  rewrite length_app. lia.
Qed.

Lemma length_grid_points (G : nat) : length (grid_points G) = G * G.
Proof.
  cbv beta iota zeta delta [grid_points meshgrid ravel].
  rewrite length_combine.
  rewrite (length_concat_rows _ G), (length_concat_rows _ G).
  - rewrite !length_map, length_linspace. lia.
  - apply Forall_forall. intros row Hin.
    apply list_elem_of_In, in_map_iff in Hin. destruct Hin as (y & <- & _).
    now rewrite length_map, length_linspace.
  - apply Forall_forall. intros row Hin.
    apply list_elem_of_In, in_map_iff in Hin. destruct Hin as (y & <- & _).
    apply length_linspace.
Qed.

(** The flat list of sample points is row-major: entry [r * G + c] is the
    sample point of row [r], column [c]. *)
Lemma grid_points_lookup (G r c : nat) :
  r < G -> c < G ->
  grid_points G !! (r * G + c) = Some (sample_point G r c).
Proof.
  intros Hr Hc.
  assert (Hlt : r * G + c < G * G) by nia.
  pose proof (length_grid_points G) as Hlen.
  destruct (nth_lookup_or_length (grid_points G) (r * G + c) (0%Q, 0%Q))
    as [E|E]; [|lia].
  rewrite E. f_equal.
  cbv beta iota zeta delta [grid_points meshgrid ravel sample_point].
  set (x := linspace 0 10 G).
  assert (Hx : length x = G) by apply length_linspace.
  assert (F1 : Forall (fun row : list Q => length row = G)
                      (map (fun _ : Q => x) x)).
  { apply Forall_forall. intros row Hin.
    apply list_elem_of_In, in_map_iff in Hin. now destruct Hin as (y & <- & _). }
  assert (F2 : Forall (fun row : list Q => length row = G)
                      (map (fun yi : Q => map (fun _ : Q => yi) x) x)).
  { apply Forall_forall. intros row Hin.
    apply list_elem_of_In, in_map_iff in Hin. destruct Hin as (y & <- & _).
    now rewrite length_map. }
  rewrite combine_nth
    by (rewrite (length_concat_rows _ G F1), (length_concat_rows _ G F2);
        now rewrite !length_map).
  f_equal.
  - rewrite nth_lookup, (concat_lookup_row _ G r c F1 Hc).
    change (map (fun _ : Q => x) x) with ((fun _ : Q => x) <$> x).
    rewrite list_lookup_fmap.
    destruct (nth_lookup_or_length x r 0%Q) as [Er|Er]; [|lia].
    rewrite Er. simpl. now rewrite <- nth_lookup.
  - rewrite nth_lookup, (concat_lookup_row _ G r c F2 Hc).
    change (map (fun yi : Q => map (fun _ : Q => yi) x) x)
      with ((fun yi : Q => map (fun _ : Q => yi) x) <$> x).
    rewrite list_lookup_fmap.
    destruct (nth_lookup_or_length x r 0%Q) as [Er|Er]; [|lia].
    rewrite Er. simpl.
    change (map (fun _ : Q => nth r x 0%Q) x)
      with ((fun _ : Q => nth r x 0%Q) <$> x).
    rewrite list_lookup_fmap.
    destruct (nth_lookup_or_length x c 0%Q) as [Ec|Ec]; [|lia].
    now rewrite Ec.
Qed.

Lemma enumerate_In {A} (l : list A) (i : nat) (x : A) :
  In (i, x) (enumerate l) <-> l !! i = Some x.
Proof.
  unfold enumerate.
  assert (H : forall start, In (i, x) (combine (seq start (length l)) l)
                            <-> start <= i /\ l !! (i - start) = Some x).
  { induction l as [|y l IH]; intros start; simpl.
    - split; [intros [] | intros [_ H]; discriminate].
    - rewrite IH. split.
      + intros [H | [Hle H]].
        * injection H as -> ->. split; [lia|]. now rewrite Nat.sub_diag.
        * split; [lia|]. replace (i - start) with (S (i - S start)) by lia.
          exact H.
      + intros [Hle H]. destruct (i - start) as [|d] eqn:E.
        * left. injection H as ->. f_equal. lia.
        * right. split; [lia|]. replace (i - S start) with d by lia. exact H. }
  rewrite H. rewrite Nat.sub_0_r. split; [tauto | intros; split; [lia | assumption]].
Qed.

Lemma enumerate_fst {A} (l : list A) :
  map fst (enumerate l) = seq 0 (length l).
Proof.
  unfold enumerate.
  assert (H : forall start, map fst (combine (seq start (length l)) l)
                            = seq start (length l)).
  { induction l as [|y l IH]; intros start; simpl; [reflexivity|].
    now rewrite IH. }
  apply H.
Qed.

(** ** The classification loop *)

(** When every lookup of the loop body succeeds, the loop writes, for each
    cell it visits, the nearest site and the colour index found for it. *)
Lemma classify_fill (pts : list point) (cs : list string)
    (c2i : gmap string nat) (G : nat) :
  (forall gp, exists k c ci,
      argmin (distances pts gp) = Ok k /\ list_get cs k = Ok c
      /\ dict_get c2i c = Ok ci) ->
  forall (cells : list (nat * point)) (ig cg : grid),
  classify pts cs c2i G cells ig cg
  = (Ok (),
     (fill G (map (fun x => (x.1, nearest pts x.2)) cells) ig,
      fill G (map (fun x => (x.1, color_index_of pts cs c2i x.2)) cells) cg)).
Proof.
  intros H. induction cells as [|[i gp] cells IH]; intros ig cg; [reflexivity|].
  destruct (H gp) as (k & c & ci & E1 & E2 & E3).
  cbn [classify map fst snd]. rewrite E1, E2, E3, IH.
  unfold fill at 3 4. cbn [fold_left fst snd].
  unfold color_index_of, nearest. rewrite E1, E2, E3. reflexivity.
Qed.

Lemma flat_index (G r c : nat) :
  c < G -> (r * G + c) / G = r /\ (r * G + c) mod G = c.
Proof.
  intros Hc. split.
  - rewrite Nat.div_add_l by lia. rewrite Nat.div_small by lia. lia.
  - rewrite Nat.add_comm, Nat.Div0.mod_add. now apply Nat.mod_small.
Qed.

Lemma fill_grid_points (G : nat) (f : point -> nat) (r c : nat) :
  r < G -> c < G ->
  grid_at (fill G (map (fun x => (x.1, f x.2)) (enumerate (grid_points G)))
                (zeros G G)) r c
  = f (sample_point G r c).
Proof.
  intros Hr Hc.
  destruct (flat_index G r c Hc) as [Hd Hm].
  transitivity
    (grid_at (fill G (map (fun x => (x.1, f x.2)) (enumerate (grid_points G)))
                   (zeros G G))
             ((r * G + c) / G) ((r * G + c) mod G));
    [now rewrite Hd, Hm|].
  apply fill_at.
  - rewrite map_map. cbn [fst].
    change (map (fun x : nat * point => x.1) (enumerate (grid_points G)))
      with (map fst (enumerate (grid_points G))).
    rewrite enumerate_fst. apply NoDup_seq.
  - apply in_map_iff. exists (r * G + c, sample_point G r c).
    split; [reflexivity|].
    apply enumerate_In. now apply grid_points_lookup.
  - nia.
  - apply zeros_dims.
Qed.

(** ** The boundary loops *)

Lemma boundary_cell_spec (ig : grid) (dx dy : Q) (i j : nat)
    (acc : list segment) :
  boundary_cell ig dx dy i j acc
  = acc ++ map (segment_of dx dy)
               (List.filter (differs ig) [(i, j, Horizontal); (i, j, Vertical)]).
Proof.
  unfold boundary_cell. cbn [List.filter differs neighbour fst snd].
  destruct (Nat.eqb (grid_at ig i j) (grid_at ig i (j + 1)));
    destruct (Nat.eqb (grid_at ig i j) (grid_at ig (i + 1) j));
    cbn [negb map segment_of neighbour fst snd];
    rewrite <- ?app_assoc, ?app_nil_r; reflexivity.
Qed.

Lemma boundary_row_spec (ig : grid) (dx dy : Q) (i : nat) (js : list nat) :
  forall acc,
  fold_left (fun lines' j => boundary_cell ig dx dy i j lines') js acc
  = acc ++ map (segment_of dx dy)
               (List.filter (differs ig)
                  (flat_map (fun j => [(i, j, Horizontal); (i, j, Vertical)]) js)).
Proof.
  induction js as [|j js IH]; intros acc.
  - simpl. now rewrite app_nil_r.
  - cbn [fold_left flat_map]. rewrite IH, boundary_cell_spec.
    rewrite List.filter_app, map_app, <- app_assoc. reflexivity.
Qed.

(** The two loops append, to the lines already there, the lines of the
    pairs that differ, in the order of the scan. *)
Lemma boundary_loop_spec (ig : grid) (dx dy : Q) (G : nat)
    (acc : list segment) :
  boundary_loop ig dx dy G acc
  = acc ++ map (segment_of dx dy) (List.filter (differs ig) (scan G)).
Proof.
  unfold boundary_loop, scan. generalize (seq 0 (G - 1)) at 2 4 as rows.
  intros rows. revert acc.
  induction rows as [|i rows IH]; intros acc.
  - simpl. now rewrite app_nil_r.
  - cbn [fold_left flat_map]. rewrite IH, boundary_row_spec.
    rewrite List.filter_app, map_app, <- app_assoc. reflexivity.
Qed.



Lemma scan_In (G : nat) (i j : nat) (o : orientation) :
  In (i, j, o) (scan G) <-> i < G - 1 /\ j < G - 1.
Proof.
  unfold scan. rewrite in_flat_map. split.
  - intros (i' & Hi & Hin). apply in_flat_map in Hin.
    destruct Hin as (j' & Hj & Hin).
    apply in_seq in Hi, Hj.
    destruct Hin as [E | [E | []]]; injection E as -> -> _; lia.
  - intros [Hi Hj]. exists i. split; [apply in_seq; lia|].
    apply in_flat_map. exists j. split; [apply in_seq; lia|].
    destruct o; [now left | right; now left].
Qed.





(** ** A whole cycle *)

Lemma length_rand_rows (n : nat) :
  forall g, length (rand_rows n g).1 = n.
Proof.
  induction n as [|n IH]; intros g; [reflexivity|].
  cbn [rand_rows].
  destruct (random_sample g) as [x g1].
  destruct (random_sample g1) as [y g2].
  specialize (IH g2). destruct (rand_rows n g2) as [rest g3].
  simpl in *. lia.
Qed.

Lemma rand_points_ok (N : Z) (g : rng) :
  (0 <= N)%Z ->
  rand_points N g
  = (Ok (rand_rows (Z.to_nat N) g).1, (rand_rows (Z.to_nat N) g).2).
Proof.
  intros HN. unfold rand_points.
  replace (N <? 0)%Z with false by (symmetry; apply Z.ltb_ge; lia).
  now destruct (rand_rows (Z.to_nat N) g).
Qed.

Lemma rand_points_negative (N : Z) (g : rng) :
  (N < 0)%Z -> rand_points N g = (Raise ValueError, g).
Proof.
  intros HN. unfold rand_points.
  now replace (N <? 0)%Z with true by (symmetry; apply Z.ltb_lt; lia).
Qed.

Lemma plot_points_spec (cs : list string) (pts : list (nat * point)) :
  forall acc,
  (forall ip, In ip pts -> ip.1 < length cs) ->
  plot_points pts cs acc
  = (Ok (),
     acc ++ map (fun ip : nat * point =>
                   {| mk_x := ip.2.1; mk_y := ip.2.2;
                      mk_color := nth ip.1 cs "" |}) pts).
Proof.
  induction pts as [|[i p] pts IH]; intros acc Hin.
  - simpl. now rewrite app_nil_r.
  - cbn [plot_points].
    assert (Hi : i < length cs) by (apply (Hin (i, p)); now left).
    unfold list_get.
    destruct (nth_lookup_or_length cs i "") as [E|E]; [|lia].
    rewrite E, IH by (intros; apply Hin; now right).
    cbn [map fst snd]. now rewrite <- app_assoc.
Qed.

Lemma length_distances (pts : list point) (gp : point) :
  length (distances pts gp) = length pts.
Proof. unfold distances. apply length_map. Qed.

Lemma is_first_min_lt (l : list Q) (k : nat) : is_first_min l k -> k < length l.
Proof. intros (dk & Hk & _). eapply lookup_lt_Some; eassumption. Qed.

Lemma nearest_spec (pts : list point) (gp : point) :
  pts <> [] ->
  argmin (distances pts gp) = Ok (nearest pts gp)
  /\ is_first_min (distances pts gp) (nearest pts gp).
Proof.
  intros Hne.
  destruct (argmin_spec (distances pts gp)) as (k & E & Hk).
  { destruct pts; [congruence | discriminate]. }
  unfold nearest. rewrite E. auto.
Qed.

(** Every lookup of the classification loop succeeds when the colours are
    pool colours at indices below the number of colours, one per site. *)
Lemma classify_lookups (pts : list point) (pool : list string) (K : Z)
    (a : list nat) :
  pts <> [] -> length a = length pts ->
  (0 <= K)%Z -> Z.to_nat K <= length pool ->
  (forall i, In i a -> i < Z.to_nat K) ->
  forall gp, exists k c ci,
    argmin (distances pts gp) = Ok k
    /\ list_get (map (pool_at pool) a) k = Ok c
    /\ dict_get (color_to_index pool K) c = Ok ci.
Proof.
  intros Hne Hla HK Hlen Ha gp.
  destruct (nearest_spec pts gp Hne) as [E Hmin].
  apply is_first_min_lt in Hmin. rewrite length_distances in Hmin.
  set (k := nearest pts gp) in *.
  destruct (nth_lookup_or_length a k 0) as [Ek|Ek]; [|lia].
  assert (Hak : nth k a 0 < Z.to_nat K).
  { apply Ha. apply list_elem_of_In, list_elem_of_lookup. eauto. }
  destruct (color_to_index_lookup pool K (nth k a 0) HK Hak Hlen)
    as (ci & Hci & _).
  exists k, (pool_at pool (nth k a 0)), ci.
  split; [exact E|]. split; [|exact Hci].
  unfold list_get. change (map (pool_at pool) a) with (pool_at pool <$> a).
  now rewrite list_lookup_fmap, Ek.
Qed.

Lemma truediv_ok (a : Q) (G : nat) :
  0 < G -> truediv a G = Ok (a / inj G)%Q.
Proof.
  intros HG. unfold truediv. destruct G; [lia | reflexivity].
Qed.

Ltac world_simpl :=
  cbn [np_random py_random set_point_plots set_boundary_lines set_np set_py
       set_points set_colors set_grids set_voronoi_plot
       points colors index_grid color_grid voronoi_plot point_plots
       boundary_lines fst snd].

(** A cycle with at least one point and one colour raises nothing, and
    leaves the state [cycle_world]. *)
Lemma generate_voronoi_at_ok (G : nat) (N K : Z) (w : World) :
  (1 <= N)%Z -> (1 <= K)%Z -> 0 < G ->
  exists pool g2,
    build_pool (Z.min K N) (rand_rows (Z.to_nat N) (np_random w)).2
    = (Ok pool, g2)
    /\ length pool = 2 + Z.to_nat (Z.min K N - 2)
    /\ pool_invariant pool
    /\ generate_voronoi_at G N K w = (Ok (), cycle_world G N K w pool g2).
Proof.
  intros HN HK HG.
  set (g1 := (rand_rows (Z.to_nat N) (np_random w)).2).
  destruct (build_pool_spec (Z.min K N) g1) as (pool & g2 & Epool & Hlen & Hinv).
  exists pool, g2. split; [exact Epool|]. split; [exact Hlen|].
  split; [exact Hinv|].
  assert (HKe : (1 <= Z.min K N)%Z) by lia.
  assert (Hpl : Z.to_nat (Z.min K N) <= length pool) by lia.
  set (pts := (rand_rows (Z.to_nat N) (np_random w)).1).
  assert (Hpts : length pts = Z.to_nat N) by apply length_rand_rows.
  assert (Hne : pts <> []) by (destruct pts; [simpl in Hpts; lia | discriminate]).
  set (a := color_assignment N (Z.min K N) (py_random w)).
  assert (Hla : length a.1 = length pts)
    by (rewrite Hpts; apply color_assignment_length; lia).
  assert (Hlook := classify_lookups pts pool (Z.min K N) a.1 Hne Hla
                     ltac:(lia) Hpl
                     (fun i => color_assignment_bound N (Z.min K N)
                                 (py_random w) i ltac:(lia))).
  unfold generate_voronoi_at, cycle_world.
  unfold mbind, M_bind, modify, lift, run_np, run_py, run_classify,
    run_plot_points.
  world_simpl. rewrite rand_points_ok by lia. fold g1 pts.
  world_simpl. rewrite Epool.
  world_simpl. rewrite assign_colors_assignment by lia. fold a.
  world_simpl. rewrite (classify_fill pts _ _ G Hlook).
  world_simpl. rewrite plot_points_spec.
  2:{ intros [i p] Hin. apply enumerate_In in Hin.
      apply lookup_lt_Some in Hin. cbn [fst]. rewrite length_map. lia. }
  rewrite truediv_ok by assumption.
  world_simpl. rewrite boundary_loop_spec.
  reflexivity.
Qed.

(** ** The claims on colours *)

Lemma distance_lt_check (a b : rgb) (t : Q) :
  (0 <= t)%Q -> Qltb (dist2 a b) (t * t) = true -> (distance a b < Q2R t)%R.
Proof.
  intros Ht H. unfold distance.
  now apply (sqrt_check_adequate (dist2 a b) t (dist2_nonneg a b) Ht).
Qed.






(** C6 fails as stated: with the candidate [(13/128, 0, 0)] the pool of
    three colours is black, white and ["#190000"], and ["#190000"] is at
    distance [25/255 < 0.1] from black. *)
Lemma pool_pairwise_threshold_fails :
  ~ pool_pairwise_threshold 3 (start close_stream).
Proof.
  intros (pool & Hp & _ & _ & _ & Hd).
  assert (E : (build_pool 3 (start close_stream)).1
              = Ok [black; white; "#190000"]) by (vm_compute; reflexivity).
  rewrite E in Hp. injection Hp as <-.
  specialize (Hd 0 2 black "#190000" (0 # 255, 0 # 255, 0 # 255)%Q
                 (25 # 255, 0 # 255, 0 # 255)%Q).
  assert (Hlt : (distance (0 # 255, 0 # 255, 0 # 255)%Q
                          (25 # 255, 0 # 255, 0 # 255)%Q < Q2R threshold)%R).
  { apply distance_lt_check; [discriminate | vm_compute; reflexivity]. }
  apply (Rlt_irrefl (Q2R threshold)).
  eapply Rle_lt_trans; [|exact Hlt].
  apply Hd; try reflexivity; try lia; discriminate.
Qed.

(** C6, amended: for every [K >= 2] the pool is a list of exactly [K]
    colours, black first and white second; every later entry other than
    the fallback gray is the 8-bit form of a candidate that was at distance
    at least 0.1 from all the entries before it, so that the stored entries
    are pairwise further apart than [0.1 - sqrt 3 / 255] (hence distinct),
    whenever the later one of the two is not the fallback gray. *)
Theorem color_pool_distinct (K : Z) (g : rng) :
  (2 <= K)%Z ->
  exists pool g',
    build_pool K g = (Ok pool, g')
    /\ length pool = Z.to_nat K
    /\ pool !! 0 = Some black /\ pool !! 1 = Some white
    /\ Forall is_color pool
    /\ (forall j cj, 2 <= j -> pool !! j = Some cj -> cj <> fallback_gray ->
          checked_entry pool j cj)
    /\ (forall i j ci cj a b, i < j ->
          pool !! i = Some ci -> pool !! j = Some cj -> cj <> fallback_gray ->
          to_rgb ci = Ok a -> to_rgb cj = Ok b ->
          (Q2R threshold - sqrt 3 / 255 < distance a b)%R /\ ci <> cj).
Proof.
  intros HK.
  destruct (build_pool_spec K g) as (pool & g' & E & Hl & Hinv).
  exists pool, g'. split; [exact E|]. split; [lia|].
  pose proof Hinv as (Hcol & H0 & H1 & Hchk).
  split; [exact H0|]. split; [exact H1|]. split; [exact Hcol|].
  split; [exact Hchk|].
  intros i j ci cj a b Hij Hi Hj Hng Ha Hb. split.
  - exact (pool_invariant_pairwise pool Hinv i j ci cj a b Hij Hi Hj Hng Ha Hb).
  - exact (pool_invariant_distinct pool Hinv i j ci cj Hij Hi Hj Hng).
Qed.

Lemma color_pool_distinct_witness :
  exists pool g',
    build_pool 3 (start close_stream) = (Ok pool, g')
    /\ length pool = Z.to_nat 3
    /\ pool !! 0 = Some black /\ pool !! 1 = Some white
    /\ Forall is_color pool
    /\ (forall j cj, 2 <= j -> pool !! j = Some cj -> cj <> fallback_gray ->
          checked_entry pool j cj)
    /\ (forall i j ci cj a b, i < j ->
          pool !! i = Some ci -> pool !! j = Some cj -> cj <> fallback_gray ->
          to_rgb ci = Ok a -> to_rgb cj = Ok b ->
          (Q2R threshold - sqrt 3 / 255 < distance a b)%R /\ ci <> cj).
Proof.
  apply (color_pool_distinct 3 (start close_stream)). lia.
Defined.

(** ** Facts used by the claims on a cycle *)





Lemma color_index_of_spec (pts : list point) (pool : list string) (K : Z)
    (a : list nat) (gp : point) :
  pts <> [] -> length a = length pts ->
  nearest pts gp < length a
  /\ color_index_of pts (map (pool_at pool) a) (color_to_index pool K) gp
     = match dict_get (color_to_index pool K)
                      (pool_at pool (nth (nearest pts gp) a 0)) with
       | Ok ci => ci
       | Raise _ => 0
       end.
Proof.
  intros Hne Hla.
  destruct (nearest_spec pts gp Hne) as [_ Hmin].
  apply is_first_min_lt in Hmin. rewrite length_distances in Hmin.
  split; [lia|].
  unfold color_index_of, list_get.
  change (map (pool_at pool) a) with (pool_at pool <$> a).
  rewrite list_lookup_fmap.
  destruct (nth_lookup_or_length a (nearest pts gp) 0) as [E|E]; [|lia].
  now rewrite E.
Qed.

Lemma classified_index_grid_at (G : nat) (pts : list point) (i j : nat) :
  i < G -> j < G ->
  grid_at (classified_index_grid G pts) i j = nearest pts (sample_point G i j).
Proof. intros. now apply (fill_grid_points G (nearest pts)). Qed.

Lemma classified_color_grid_at (G : nat) (pts : list point)
    (cs : list string) (c2i : gmap string nat) (i j : nat) :
  i < G -> j < G ->
  grid_at (classified_color_grid G pts cs c2i) i j
  = color_index_of pts cs c2i (sample_point G i j).
Proof. intros. now apply (fill_grid_points G (color_index_of pts cs c2i)). Qed.

(** The counts of the colour assignment: every index below the number of
    colours occurs [N / K] times, and once more when it was sampled. *)
Lemma color_assignment_balanced (N K : Z) (g : rng) :
  (0 <= N)%Z -> (1 <= K)%Z ->
  let a := (color_assignment N K g).1 in
  let extra := extra_indices N K g in
  length a = Z.to_nat N
  /\ (forall i, In i a -> i < Z.to_nat K)
  /\ NoDup extra /\ length extra = Z.to_nat (N mod K)
  /\ (forall i, In i extra -> i < Z.to_nat K)
  /\ (forall i, i < Z.to_nat K ->
        (In i extra -> count_occ Nat.eq_dec a i = Z.to_nat (N / K) + 1)
        /\ (~ In i extra -> count_occ Nat.eq_dec a i = Z.to_nat (N / K)))
  /\ ((N mod K = 0)%Z -> extra = []).
Proof.
  intros HN HK a extra.
  destruct (extra_indices_spec N K g ltac:(lia)) as (Hel & Hend & Helt).
  fold extra in Hel, Hend, Helt.
  split; [apply color_assignment_length; lia|].
  split; [intros i; apply color_assignment_bound; lia|].
  split; [exact Hend|]. split; [exact Hel|]. split; [exact Helt|].
  split.
  - intros i Hi. unfold a. rewrite color_assignment_count by assumption.
    fold extra. split; intros Hin.
    + f_equal. apply NoDup_ListNoDup in Hend.
      now apply (proj1 (NoDup_count_occ' Nat.eq_dec extra) Hend).
    + rewrite (proj1 (count_occ_not_In Nat.eq_dec extra i) Hin). lia.
  - intros Hz. destruct extra; [reflexivity|].
    rewrite Hz in Hel. discriminate.
Qed.

(** ** Cycles that raise *)

Lemma generate_voronoi_at_negative (G : nat) (N K : Z) (w : World) :
  (N < 0)%Z ->
  generate_voronoi_at G N K w
  = (Raise ValueError, set_boundary_lines [] (set_point_plots [] w)).
Proof.
  intros HN. unfold generate_voronoi_at.
  unfold mbind, M_bind, modify, lift, run_np.
  world_simpl. rewrite rand_points_negative by assumption.
  destruct w; reflexivity.
Qed.

Lemma build_pool_small (K : Z) (g : rng) :
  (K <= 2)%Z -> build_pool K g = (Ok [black; white], g).
Proof.
  intros HK. unfold build_pool.
  now replace (Z.to_nat (K - 2)) with 0 by lia.
Qed.

Lemma generate_voronoi_at_zero_colors (G : nat) (N K : Z) (w : World) :
  (0 <= N)%Z -> Z.min K N = 0%Z ->
  exists w',
    generate_voronoi_at G N K w = (Raise ZeroDivisionError, w')
    /\ points w' = Some (rand_rows (Z.to_nat N) (np_random w)).1
    /\ colors w' = colors w /\ index_grid w' = index_grid w
    /\ color_grid w' = color_grid w.
Proof.
  intros HN HK. unfold generate_voronoi_at.
  unfold mbind, M_bind, modify, lift, run_np, run_py.
  world_simpl. rewrite rand_points_ok by lia.
  world_simpl. rewrite HK, build_pool_small by lia.
  world_simpl. unfold assign_colors. cbn [floordiv Z.eqb].
  eexists. split; [reflexivity|]. world_simpl. auto.
Qed.

Lemma assign_colors_negative (pool : list string) (N K : Z) (g : rng) :
  (0 <= N)%Z -> (K < 0)%Z -> assign_colors pool N K g = (Ok [], g).
Proof.
  intros HN HK. unfold assign_colors, floordiv, range.
  replace (K =? 0)%Z with false by (symmetry; apply Z.eqb_neq; lia).
  replace (Z.to_nat K) with 0 by lia. cbn [seq extend_base].
  pose proof (Z.mod_neg_bound N K HK) as Hrem.
  replace (0 <? N mod K)%Z with false by (symmetry; apply Z.ltb_ge; lia).
  destruct g; reflexivity.
Qed.

Lemma generate_voronoi_at_negative_colors (G : nat) (N K : Z) (w : World) :
  (0 <= N)%Z -> (Z.min K N < 0)%Z -> 0 < G ->
  exists w',
    generate_voronoi_at G N K w
    = (Raise (if (N =? 0)%Z then ValueError else IndexError), w')
    /\ colors w' = Some [].
Proof.
  intros HN HK HG. unfold generate_voronoi_at.
  unfold mbind, M_bind, modify, lift, run_np, run_py, run_classify.
  world_simpl. rewrite rand_points_ok by lia.
  world_simpl. rewrite build_pool_small by lia.
  world_simpl. rewrite assign_colors_negative by lia.
  world_simpl.
  pose proof (length_grid_points G) as Hgp.
  unfold enumerate. rewrite Hgp.
  destruct (grid_points G) as [|gp gps] eqn:Egp; [simpl in Hgp; nia|].
  cbn [length] in Hgp. rewrite <- Hgp. cbn [seq combine classify].
  pose proof (length_rand_rows (Z.to_nat N) (np_random w)) as Hpts.
  destruct (rand_rows (Z.to_nat N) (np_random w)).1 as [|p pts] eqn:Epts.
  - cbn [distances map argmin].
    replace (N =? 0)%Z with true
      by (symmetry; apply Z.eqb_eq; simpl in Hpts; lia).
    eexists. split; [reflexivity|]. reflexivity.
  - replace (N =? 0)%Z with false
      by (symmetry; apply Z.eqb_neq; simpl in Hpts; lia).
    cbn [distances map argmin]. unfold list_get. rewrite lookup_nil.
    eexists. split; [reflexivity|]. reflexivity.
Qed.

(** A cycle raises nothing exactly when there is at least one point and
    one colour. *)
Lemma generate_voronoi_at_ok_iff (G : nat) (N K : Z) (w : World) :
  0 < G ->
  (generate_voronoi_at G N K w).1 = Ok () <-> (1 <= N)%Z /\ (1 <= K)%Z.
Proof.
  intros HG. split.
  - intros Hok.
    destruct (Z.lt_ge_cases N 0) as [Hn|Hn].
    { rewrite generate_voronoi_at_negative in Hok by assumption. discriminate. }
    destruct (Z.lt_trichotomy (Z.min K N) 0) as [Hk|[Hk|Hk]].
    + destruct (generate_voronoi_at_negative_colors G N K w Hn Hk HG)
        as (w' & E & _).
      rewrite E in Hok. discriminate.
    + destruct (generate_voronoi_at_zero_colors G N K w Hn Hk) as (w' & E & _).
      rewrite E in Hok. discriminate.
    + lia.
  - intros [HN HK].
    destruct (generate_voronoi_at_ok G N K w HN HK HG) as (pool & g2 & _ & _ & _ & E).
    now rewrite E.
Qed.

(** ** The claims on a cycle *)

Lemma grid_size_pos : 0 < grid_size.
Proof. unfold grid_size. lia. Qed.

(** What a cycle leaves in the two arrays: for every cell, the nearest
    site and the colour index found for it. *)
Lemma cycle_cells (G : nat) (N K : Z) (w : World) :
  (1 <= N)%Z -> (1 <= K)%Z -> 0 < G ->
  let w' := (generate_voronoi_at G N K w).2 in
  let pts := (rand_rows (Z.to_nat N) (np_random w)).1 in
  let a := (color_assignment N (Z.min K N) (py_random w)).1 in
  exists pool g2 ig cg,
    build_pool (Z.min K N) (rand_rows (Z.to_nat N) (np_random w)).2
    = (Ok pool, g2)
    /\ index_grid w' = Some ig /\ color_grid w' = Some cg
    /\ forall i j, i < G -> j < G ->
         grid_at ig i j = nearest pts (sample_point G i j)
         /\ grid_at cg i j
            = color_index_of pts (map (pool_at pool) a)
                (color_to_index pool (Z.min K N)) (sample_point G i j).
Proof.
  intros HN HK HG w' pts a.
  destruct (generate_voronoi_at_ok G N K w HN HK HG)
    as (pool & g2 & Ep & _ & _ & E).
  exists pool, g2, (classified_index_grid G pts),
    (classified_color_grid G pts (map (pool_at pool) a)
                           (color_to_index pool (Z.min K N))).
  unfold w'. rewrite E. cbn [snd]. unfold cycle_world.
  cbn [index_grid color_grid].
  split; [exact Ep|]. split; [reflexivity|]. split; [reflexivity|].
  intros i j Hi Hj.
  now rewrite classified_index_grid_at, classified_color_grid_at.
Qed.

(** The run behind the failure of C1: the pool built when every numpy
    draw is 0, and what the first cell of the grid gets. *)
Lemma gray_pool :
  (build_pool (Z.min 4 4)
     (rand_rows (Z.to_nat 4) (np_random gray_world)).2).1
  = Ok [black; white; fallback_gray; fallback_gray].
Proof. vm_compute. reflexivity. Qed.

Lemma gray_cell_color_index :
  color_index_of
    (rand_rows (Z.to_nat 4) (np_random gray_world)).1
    (map (pool_at [black; white; fallback_gray; fallback_gray])
         (color_assignment 4 (Z.min 4 4) (py_random gray_world)).1)
    (color_to_index [black; white; fallback_gray; fallback_gray]
                    (Z.min 4 4))
    (sample_point grid_size 0 0) = 3.
Proof. vm_compute. reflexivity. Qed.

Lemma gray_cell_assignment :
  nth (nearest (rand_rows (Z.to_nat 4) (np_random gray_world)).1
               (sample_point grid_size 0 0))
      (color_assignment 4 (Z.min 4 4) (py_random gray_world)).1 0
  = 2.
Proof. vm_compute. reflexivity. Qed.

(** C1 fails as stated: when every numpy draw is 0, both generated slots
    of a pool of four fall back to the gray ["#808080"], the dictionary
    sends that colour to index 3, and the site nearest to the first cell,
    assigned pool index 2, is recorded in [color_grid] as 3. *)
Lemma consistency_invariant_fails :
  ~ consistency_invariant grid_size 4 4 gray_world.
Proof.
  intros H.
  destruct (cycle_cells grid_size 4 4 gray_world)
    as (pool & g2 & ig & cg & Ep & Hig & Hcg & Hcell);
    [lia | lia | apply grid_size_pos |].
  pose proof gray_pool as E0.
  rewrite Ep in E0. cbn [fst] in E0. injection E0 as ->.
  assert (HH : grid_at cg 0 0
               = nth (grid_at ig 0 0)
                     (color_assignment 4 (Z.min 4 4)
                        (py_random gray_world)).1 0)
    by exact (H ig cg Hig Hcg 0 0 grid_size_pos grid_size_pos).
  clear H.
  destruct (Hcell 0 0 grid_size_pos grid_size_pos) as [E1 E2].
  rewrite E1, E2 in HH.
  rewrite gray_cell_color_index, gray_cell_assignment in HH. discriminate.
Qed.

(** C1, amended: after a cycle, for every cell, [color_grid[i][j]] is a
    pool index that holds the colour of the site [index_grid[i][j]], the
    last such index below the number of colours; it is the index
    [color_assignment[index_grid[i][j]]] itself whenever the colours of the
    pool are pairwise distinct. *)
Theorem color_grid_consistent (G : nat) (N K : Z) (w : World) :
  (1 <= N)%Z -> (1 <= K)%Z -> 0 < G ->
  let w' := (generate_voronoi_at G N K w).2 in
  let k := Z.to_nat (Z.min K N) in
  let a := (color_assignment N (Z.min K N) (py_random w)).1 in
  exists pool g2 ig cg,
    build_pool (Z.min K N) (rand_rows (Z.to_nat N) (np_random w)).2
    = (Ok pool, g2)
    /\ index_grid w' = Some ig /\ color_grid w' = Some cg
    /\ colors w' = Some (map (pool_at pool) a)
    /\ forall i j, i < G -> j < G ->
         grid_at ig i j < length a
         /\ pool_at pool (grid_at cg i j)
            = pool_at pool (nth (grid_at ig i j) a 0)
         /\ nth (grid_at ig i j) a 0 <= grid_at cg i j < k
         /\ (forall m, grid_at cg i j < m < k ->
               pool_at pool m <> pool_at pool (grid_at cg i j))
         /\ (NoDup (take k pool) ->
               grid_at cg i j = nth (grid_at ig i j) a 0).
Proof.
  intros HN HK HG w' k a.
  destruct (generate_voronoi_at_ok G N K w HN HK HG)
    as (pool & g2 & Ep & Hlen & _ & E).
  set (pts := (rand_rows (Z.to_nat N) (np_random w)).1).
  assert (Hpts : length pts = Z.to_nat N) by apply length_rand_rows.
  assert (Hne : pts <> [])
    by (destruct pts; [simpl in Hpts; lia | discriminate]).
  assert (Hla : length a = length pts)
    by (rewrite Hpts; apply color_assignment_length; lia).
  assert (Hpl : k <= length pool) by (unfold k; lia).
  exists pool, g2, (classified_index_grid G pts),
    (classified_color_grid G pts (map (pool_at pool) a)
                           (color_to_index pool (Z.min K N))).
  unfold w'. rewrite E. cbn [snd]. unfold cycle_world.
  cbn [index_grid color_grid colors]. fold pts a.
  split; [exact Ep|]. split; [reflexivity|]. split; [reflexivity|].
  split; [reflexivity|].
  intros i j Hi Hj.
  rewrite classified_index_grid_at, classified_color_grid_at by assumption.
  set (gp := sample_point G i j).
  destruct (color_index_of_spec pts pool (Z.min K N) a gp Hne Hla) as [Hk Eci].
  rewrite Eci.
  assert (Hak : nth (nearest pts gp) a 0 < k).
  { apply (color_assignment_bound N (Z.min K N) (py_random w)); [lia|].
    fold a. apply nth_In. exact Hk. }
  destruct (color_to_index_lookup pool (Z.min K N) _ ltac:(lia) Hak Hpl)
    as (ci & Hci & Hrange & Hsame & Hlast).
  rewrite Hci. split; [exact Hk|]. split; [exact Hsame|].
  split; [exact Hrange|]. split.
  - intros m Hm. rewrite Hsame. apply Hlast. exact Hm.
  - intros Hnd.
    pose proof (color_to_index_NoDup pool (Z.min K N) _ ltac:(lia) Hak Hpl Hnd)
      as Hd.
    rewrite Hci in Hd. now injection Hd.
Qed.

Lemma color_grid_consistent_witness :
  let w' := (generate_voronoi_at 3 5 3 count_world).2 in
  let k := Z.to_nat (Z.min 3 5) in
  let a := (color_assignment 5 (Z.min 3 5) (py_random count_world)).1 in
  exists pool g2 ig cg,
    build_pool (Z.min 3 5) (rand_rows (Z.to_nat 5) (np_random count_world)).2
    = (Ok pool, g2)
    /\ index_grid w' = Some ig /\ color_grid w' = Some cg
    /\ colors w' = Some (map (pool_at pool) a)
    /\ forall i j, i < 3 -> j < 3 ->
         grid_at ig i j < length a
         /\ pool_at pool (grid_at cg i j)
            = pool_at pool (nth (grid_at ig i j) a 0)
         /\ nth (grid_at ig i j) a 0 <= grid_at cg i j < k
         /\ (forall m, grid_at cg i j < m < k ->
               pool_at pool m <> pool_at pool (grid_at cg i j))
         /\ (NoDup (take k pool) ->
               grid_at cg i j = nth (grid_at ig i j) a 0).
Proof.
  apply (color_grid_consistent 3 5 3 count_world); lia.
Defined.



(** C3: for [1 <= K <= N] and a pool of at least [K] colours, the colours
    built by the distribution step are the pool colours at a sequence of
    exactly [N] indices below [K]; every index below [K] occurs
    [N / K] or [N / K + 1] times in it, the indices occurring the extra
    time being exactly the [N mod K] distinct indices drawn by the sample;
    when [N mod K = 0] none is drawn and every index occurs [N / K] times. *)
Theorem assign_colors_balanced (pool : list string) (N K : Z) (g : rng) :
  (1 <= K)%Z -> (K <= N)%Z -> Z.to_nat K <= length pool ->
  exists a extra g',
    assign_colors pool N K g = (Ok (map (pool_at pool) a), g')
    /\ length a = Z.to_nat N
    /\ (forall i, In i a -> i < Z.to_nat K)
    /\ NoDup extra /\ length extra = Z.to_nat (N mod K)
    /\ (forall i, In i extra -> i < Z.to_nat K)
    /\ (forall i, i < Z.to_nat K ->
          (In i extra -> count_occ Nat.eq_dec a i = Z.to_nat (N / K) + 1)
          /\ (~ In i extra -> count_occ Nat.eq_dec a i = Z.to_nat (N / K)))
    /\ ((N mod K = 0)%Z -> extra = []).
Proof.
  intros HK HKN Hlen.
  exists (color_assignment N K g).1, (extra_indices N K g),
    (color_assignment N K g).2.
  split; [apply assign_colors_assignment; lia|].
  apply (color_assignment_balanced N K g); lia.
Qed.

Lemma assign_colors_balanced_witness :
  exists a extra g',
    assign_colors [black; white; fallback_gray] 5 3 (start count_stream)
    = (Ok (map (pool_at [black; white; fallback_gray]) a), g')
    /\ length a = Z.to_nat 5
    /\ (forall i, In i a -> i < Z.to_nat 3)
    /\ NoDup extra /\ length extra = Z.to_nat (5 mod 3)
    /\ (forall i, In i extra -> i < Z.to_nat 3)
    /\ (forall i, i < Z.to_nat 3 ->
          (In i extra -> count_occ Nat.eq_dec a i = Z.to_nat (5 / 3) + 1)
          /\ (~ In i extra -> count_occ Nat.eq_dec a i = Z.to_nat (5 / 3)))
    /\ ((5 mod 3 = 0)%Z -> extra = []).
Proof.
  apply (assign_colors_balanced [black; white; fallback_gray] 5 3
           (start count_stream)); simpl; lia.
Defined.

(** C8: the number of colours used by a cycle is [min (K, N)]: the colour
    map holds the first [min (K, N)] pool colours, and the colours of the
    points are balanced with respect to that number, every index below it
    occurring [N / min (K, N)] times, or once more for the
    [N mod min (K, N)] sampled indices. *)
Theorem effective_palette_size (G : nat) (N K : Z) (w : World) :
  (1 <= N)%Z -> (1 <= K)%Z -> 0 < G ->
  let r := generate_voronoi_at G N K w in
  let k := Z.min K N in
  exists pool a extra cg,
    r.1 = Ok ()
    /\ colors r.2 = Some (map (pool_at pool) a)
    /\ voronoi_plot r.2 = Some (cg, take (Z.to_nat k) pool)
    /\ length (take (Z.to_nat k) pool) = Z.to_nat k
    /\ length pool = Z.to_nat (Z.max 2 k)
    /\ length a = Z.to_nat N
    /\ (forall i, In i a -> i < Z.to_nat k)
    /\ NoDup extra /\ length extra = Z.to_nat (N mod k)
    /\ (forall i, In i extra -> i < Z.to_nat k)
    /\ (forall i, i < Z.to_nat k ->
          (In i extra -> count_occ Nat.eq_dec a i = Z.to_nat (N / k) + 1)
          /\ (~ In i extra -> count_occ Nat.eq_dec a i = Z.to_nat (N / k)))
    /\ ((N mod k = 0)%Z -> extra = []).
Proof.
  intros HN HK HG r k.
  destruct (generate_voronoi_at_ok G N K w HN HK HG)
    as (pool & g2 & _ & Hlen & _ & E).
  fold k in Hlen, E.
  exists pool, (color_assignment N k (py_random w)).1,
    (extra_indices N k (py_random w)).
  eexists. unfold r. rewrite E. cbn [fst snd]. unfold cycle_world.
  cbn [colors voronoi_plot]. fold k.
  split; [reflexivity|]. split; [reflexivity|].
  split; [rewrite slice_to_nonneg by lia; reflexivity|].
  split; [rewrite length_take; lia|].
  split; [lia|].
  apply (color_assignment_balanced N k (py_random w)); lia.
Qed.

Lemma effective_palette_size_witness :
  let r := generate_voronoi_at 3 10 20 count_world in
  let k := Z.min 20 10 in
  exists pool a extra cg,
    r.1 = Ok ()
    /\ colors r.2 = Some (map (pool_at pool) a)
    /\ voronoi_plot r.2 = Some (cg, take (Z.to_nat k) pool)
    /\ length (take (Z.to_nat k) pool) = Z.to_nat k
    /\ length pool = Z.to_nat (Z.max 2 k)
    /\ length a = Z.to_nat 10
    /\ (forall i, In i a -> i < Z.to_nat k)
    /\ NoDup extra /\ length extra = Z.to_nat (10 mod k)
    /\ (forall i, In i extra -> i < Z.to_nat k)
    /\ (forall i, i < Z.to_nat k ->
          (In i extra -> count_occ Nat.eq_dec a i = Z.to_nat (10 / k) + 1)
          /\ (~ In i extra -> count_occ Nat.eq_dec a i = Z.to_nat (10 / k)))
    /\ ((10 mod k = 0)%Z -> extra = []).
Proof.
  apply (effective_palette_size 3 10 20 count_world); lia.
Defined.

(** ** The claims on the boundary lines and on the parameters *)

Lemma inj_pos (n : nat) : 0 < n -> (0 < inj n)%Q.
Proof.
  intros Hn. unfold inj. change 0%Q with (inject_Z 0).
  rewrite <- Zlt_Qlt. lia.
Qed.


Lemma boundary_lines_In (ig : grid) (dx dy : Q) (G : nat) (s : segment) :
  In s (boundary_loop ig dx dy G [])
  <-> exists i j o, i < G - 1 /\ j < G - 1
        /\ differs ig (i, j, o) = true /\ s = segment_of dx dy (i, j, o).
Proof.
  rewrite boundary_loop_spec, app_nil_l, in_map_iff. split.
  - intros ([[i j] o] & <- & Hin).
    apply List.filter_In in Hin as [Hin Hd]. apply scan_In in Hin.
    exists i, j, o. tauto.
  - intros (i & j & o & Hi & Hj & Hd & ->).
    exists (i, j, o). split; [reflexivity|].
    apply List.filter_In. split; [apply scan_In; tauto | exact Hd].
Qed.









(** C5 fails as stated: at the resolution of the program the sample
    coordinates are [10 / 299] apart, the line endpoints [10 / 300]. *)
Lemma same_spacing_fails : ~ same_spacing grid_size.
Proof.
  intros H. specialize (H 0 ltac:(unfold grid_size; lia)).
  vm_compute in H. discriminate.
Qed.

Lemma linspace_coordinate (G j : nat) :
  j < G ->
  (nth j (linspace 0 10 G) 0 == inj j * (10 / inj (G - 1)))%Q.
Proof.
  intros Hj. rewrite nth_linspace by assumption. unfold inj, Qdiv. ring.
Qed.

Lemma spacings_differ (G : nat) :
  2 <= G -> ~ (10 / inj (G - 1) == 10 / inj G)%Q.
Proof.
  intros HG H.
  pose proof (inj_pos (G - 1) ltac:(lia)) as Ha.
  pose proof (inj_pos G ltac:(lia)) as Hb.
  assert (E : (inj G == inj (G - 1))%Q).
  { assert (E1 : (10 / inj (G - 1) * (inj (G - 1) * inj G) == 10 * inj G)%Q)
      by (field; intros Hz; rewrite Hz in Ha; now apply Qlt_irrefl in Ha).
    assert (E2 : (10 / inj G * (inj (G - 1) * inj G) == 10 * inj (G - 1))%Q)
      by (field; intros Hz; rewrite Hz in Hb; now apply Qlt_irrefl in Hb).
    rewrite H in E1. rewrite E1 in E2. lra. }
  unfold inj in E. rewrite inject_Z_injective in E. lia.
Qed.

(** C5, amended: every boundary line of a cycle joins the corner
    [(j * dx, i * dy)] of a cell [(i, j)], [i, j <= grid_size - 2], to the
    same corner of the right or upper neighbour whose [index_grid] value
    differs, with [dx = dy = 10 / grid_size]; the classifier's sample
    coordinates are evenly spaced from 0 to 10 inclusive, that is
    [10 / (grid_size - 1)] apart, which is not the spacing of the lines. *)
Theorem boundary_lines_spacing (G : nat) (N K : Z) (w : World) :
  (1 <= N)%Z -> (1 <= K)%Z -> 2 <= G ->
  let w' := (generate_voronoi_at G N K w).2 in
  let d := (10 / inj G)%Q in
  (exists ig, index_grid w' = Some ig
     /\ forall s, In s (boundary_lines w') <->
          exists i j o, i < G - 1 /\ j < G - 1
            /\ differs ig (i, j, o) = true
            /\ s = ((inj j * d, inj i * d),
                    (inj (neighbour (i, j, o)).2 * d,
                     inj (neighbour (i, j, o)).1 * d))%Q)
  /\ (forall i j, i < G -> j < G ->
        (fst (sample_point G i j) == inj j * (10 / inj (G - 1)))%Q
        /\ (snd (sample_point G i j) == inj i * (10 / inj (G - 1)))%Q)
  /\ (fst (sample_point G 0 0) == 0)%Q
  /\ (fst (sample_point G 0 (G - 1)) == 10)%Q
  /\ ~ (10 / inj (G - 1) == d)%Q.
Proof.
  intros HN HK HG w' d.
  destruct (generate_voronoi_at_ok G N K w HN HK ltac:(lia))
    as (pool & g2 & _ & _ & _ & E).
  split; [|split; [|split; [|split]]].
  - eexists. unfold w'. rewrite E. cbn [snd]. unfold cycle_world.
    cbn [index_grid boundary_lines]. split; [reflexivity|].
    intros s. fold d.
    rewrite <- (app_nil_l (map _ _)), <- boundary_loop_spec.
    apply boundary_lines_In.
  - intros i j Hi Hj. unfold sample_point. cbn [fst snd].
    split; now apply linspace_coordinate.
  - unfold sample_point. cbn [fst]. rewrite linspace_coordinate by lia.
    unfold inj. simpl. ring.
  - unfold sample_point. cbn [fst]. rewrite linspace_coordinate by lia.
    apply Qmult_div_r. intros Hz.
    pose proof (inj_pos (G - 1) ltac:(lia)) as Hp.
    rewrite Hz in Hp. now apply Qlt_irrefl in Hp.
  - now apply spacings_differ.
Qed.

Lemma boundary_lines_spacing_witness :
  let w' := (generate_voronoi_at 3 5 3 count_world).2 in
  let d := (10 / inj 3)%Q in
  (exists ig, index_grid w' = Some ig
     /\ forall s, In s (boundary_lines w') <->
          exists i j o, i < 3 - 1 /\ j < 3 - 1
            /\ differs ig (i, j, o) = true
            /\ s = ((inj j * d, inj i * d),
                    (inj (neighbour (i, j, o)).2 * d,
                     inj (neighbour (i, j, o)).1 * d))%Q)
  /\ (forall i j, i < 3 -> j < 3 ->
        (fst (sample_point 3 i j) == inj j * (10 / inj (3 - 1)))%Q
        /\ (snd (sample_point 3 i j) == inj i * (10 / inj (3 - 1)))%Q)
  /\ (fst (sample_point 3 0 0) == 0)%Q
  /\ (fst (sample_point 3 0 (3 - 1)) == 10)%Q
  /\ ~ (10 / inj (3 - 1) == d)%Q.
Proof.
  apply (boundary_lines_spacing 3 5 3 count_world); lia.
Defined.




